(** * speculate: credential set, MFA and lifetime configuration

    A shallow embedding of the Go packages [creds] and [executors]
    (src/executors/main.go) and of the older [utils] package
    (src/utils/creds.go), with the properties of their validating setters,
    lazy getters and credential translations.

    Conventions of the embedding:
    - a Go [string] is a [string] of bytes;
    - a Go [map[string]string] is a [gmap string string]; reading a missing
      key yields the zero value [""] (written [m !!! k]);
    - a Go result pair [(T, error)] is a pair [T * option error], [None]
      standing for [nil];
    - a method with a pointer receiver takes the receiver's value and returns
      the new one next to its result;
    - [range] over a map visits the entries in an order the language leaves
      unspecified: such loops take the choice of the order as an argument;
    - calls to the logger are not modelled. *)

From Stdlib Require Import ZArith Ascii String List Lia.
From stdpp Require Import gmap strings list fin_maps sorting pretty.

Local Open Scope string_scope.

(** ** Go's [strings] package *)

Module GoStrings.

(** [s[:n]] *)
Fixpoint str_take (n : nat) (s : string) : string :=
  match n, s with
  | S k, String c r => String c (str_take k r)
  | _, _ => ""
  end.

(** [s[n:]] *)
Fixpoint str_drop (n : nat) (s : string) : string :=
  match n, s with
  | S k, String _ r => str_drop k r
  | _, _ => s
  end.

(** [strings.HasPrefix(s, prefix)] *)
Fixpoint HasPrefix (s prefix : string) {struct prefix} : bool :=
  match prefix, s with
  | "", _ => true
  | String a p, String b r => if Ascii.eqb a b then HasPrefix r p else false
  | String _ _, "" => false
  end.

(** [strings.Index(s, substr)]: the position of the first occurrence of
    [substr] in [s]; [None] stands for Go's [-1]. *)
Fixpoint Index (s substr : string) : option nat :=
  if HasPrefix s substr then Some 0
  else match s with
       | "" => None
       | String _ r => S <$> Index r substr
       end.

(** [strings.Contains(s, substr)] is [Index(s, substr) >= 0]. *)
Definition Contains (s substr : string) : bool :=
  bool_decide (is_Some (Index s substr)).

(** [strings.Replace(s, old, new, n)] for [n >= 0] and a non-empty [old]:
    the first [n] non-overlapping occurrences of [old], from the left, are
    replaced by [new]. *)
Fixpoint Replace (s old new : string) (n : nat) : string :=
  match n with
  | 0 => s
  | S k =>
      match Index s old with
      | None => s
      | Some j => str_take j s +:+ new +:+ Replace (str_drop (j + String.length old) s) old new k
      end
  end.

(** The loop of [strings.Split(s, sep)] for a non-empty [sep]: cut at the
    first occurrence of [sep] and go on with what follows it.  Every round
    consumes at least one byte, so [String.length s] rounds are enough. *)
Fixpoint genSplit (fuel : nat) (s sep : string) : list string :=
  match fuel with
  | 0 => [s]
  | S f =>
      match Index s sep with
      | None => [s]
      | Some m => str_take m s :: genSplit f (str_drop (m + String.length sep) s) sep
      end
  end.

Definition Split (s sep : string) : list string :=
  genSplit (String.length s) s sep.

(** [strings.Join(elems, sep)] *)
Fixpoint Join (elems : list string) (sep : string) : string :=
  match elems with
  | [] => ""
  | [x] => x
  | x :: rest => x +:+ sep +:+ Join rest sep
  end.

End GoStrings.

(** ** Go's [fmt.Sprintf], for the verbs the program uses *)

Module GoFmt.

Inductive arg :=
| ArgS (s : string)
| ArgD (z : Z)
| ArgT (b : bool).

Definition verb (v : ascii) (a : arg) : string :=
  match a with
  | ArgS s => s
  | ArgD z => pretty z
  | ArgT b => if b then "true" else "false"
  end.

(** [%s], [%d] and [%t] consume one argument each; every other byte of the
    format is copied. *)
Fixpoint Sprintf (format : string) (args : list arg) : string :=
  match format with
  | "" => ""
  | String "%" (String v rest) =>
      match args with
      | a :: args' => verb v a +:+ Sprintf rest args'
      | [] => "%!" +:+ String v "(MISSING)" +:+ Sprintf rest []
      end
  | String c rest => String c (Sprintf rest args)
  end.

End GoFmt.

(** Go's [error] values, by their message. *)
Inductive error :=
| errorString (msg : string).

Definition Errorf (format : string) (args : list GoFmt.arg) : error :=
  errorString (GoFmt.Sprintf format args).

(** ** Go's [regexp] package, for anchored patterns *)

Module Regexp.

Inductive regex :=
| Void
| Eps
| Sym (p : ascii → bool)
| Cat (r1 r2 : regex)
| Alt (r1 r2 : regex)
| Star (r : regex).

(** [x] *)
Definition Chr (c : ascii) : regex := Sym (Ascii.eqb c).

(** a literal run of bytes *)
Fixpoint Lit (s : string) : regex :=
  match s with
  | "" => Eps
  | String c r => Cat (Chr c) (Lit r)
  end.

(** [r?] *)
Definition Quest (r : regex) : regex := Alt r Eps.

(** [r+] *)
Definition Plus (r : regex) : regex := Cat r (Star r).

(** [r{n}] *)
Fixpoint Repeat (n : nat) (r : regex) : regex :=
  match n with
  | 0 => Eps
  | S k => Cat r (Repeat k r)
  end.

Definition between (lo hi c : ascii) : bool :=
  (nat_of_ascii lo <=? nat_of_ascii c)%nat && (nat_of_ascii c <=? nat_of_ascii hi)%nat.

(** [\d] is [[0-9]] *)
Definition is_digit (c : ascii) : bool := between "0" "9" c.

(** [\w] is [[0-9A-Za-z_]] *)
Definition is_word (c : ascii) : bool :=
  is_digit c || between "A" "Z" c || between "a" "z" c || Ascii.eqb c "_".

Fixpoint nullable (r : regex) : bool :=
  match r with
  | Void => false
  | Eps => true
  | Sym _ => false
  | Cat r1 r2 => nullable r1 && nullable r2
  | Alt r1 r2 => nullable r1 || nullable r2
  | Star _ => true
  end.

Fixpoint deriv (c : ascii) (r : regex) : regex :=
  match r with
  | Void => Void
  | Eps => Void
  | Sym p => if p c then Eps else Void
  | Cat r1 r2 =>
      if nullable r1 then Alt (Cat (deriv c r1) r2) (deriv c r2)
      else Cat (deriv c r1) r2
  | Alt r1 r2 => Alt (deriv c r1) (deriv c r2)
  | Star r1 => Cat (deriv c r1) (Star r1)
  end.

(** [regexp.MustCompile("^" + r + "$").MatchString(s)]: with both anchors
    the whole of [s] has to match [r].  The classes of the patterns below
    hold ASCII bytes only, so matching byte by byte agrees with Go's matching
    rune by rune. *)
Fixpoint MatchString (r : regex) (s : string) : bool :=
  match s with
  | "" => nullable r
  | String c s' => MatchString (deriv c r) s'
  end.

(** The language of a pattern. *)
Inductive matches : regex → string → Prop :=
| MEps : matches Eps ""
| MSym p c : p c = true → matches (Sym p) (String c "")
| MCat r1 r2 s1 s2 :
    matches r1 s1 → matches r2 s2 → matches (Cat r1 r2) (s1 +:+ s2)
| MAltL r1 r2 s : matches r1 s → matches (Alt r1 r2) s
| MAltR r1 r2 s : matches r2 s → matches (Alt r1 r2) s
| MStar0 r : matches (Star r) ""
| MStarS r s1 s2 :
    matches r s1 → matches (Star r) s2 → matches (Star r) (s1 +:+ s2).

(** All bytes of [s] satisfy [p]. *)
Fixpoint all_bytes (p : ascii → bool) (s : string) : bool :=
  match s with
  | "" => true
  | String c r => p c && all_bytes p r
  end.

End Regexp.

(** ** Ranging over a Go map *)

(** [range_order m visit]: [visit] lists every entry of [m] once.  These are
    the orders in which a [for k, v := range m] loop may see the entries; the
    functions that range over a map take the choice of the order, a
    [ranger], as their first argument. *)
Definition range_order (m : gmap string string) (visit : list (string * string)) : Prop :=
  NoDup visit.*1 ∧ list_to_map visit = m.

Global Instance range_order_dec m visit : Decision (range_order m visit).
Proof. unfold range_order. apply _. Defined.

(** The choice of the order in which [range] visits the entries of a map. *)
Definition ranger : Type := gmap string string → list (string * string).

(** Go's run-time panics. *)
Inductive go (A : Type) :=
| Done (a : A)
| Panic (msg : string).
Arguments Done {A} a.
Arguments Panic {A} msg.

(** [sort.Strings]: ascending byte-wise order. *)
Definition sort_Strings (l : list string) : list string := merge_sort String.le l.

(** ** The SDK's [sts.Credentials], by the three fields the program reads *)

Module sts.

(** The fields are pointers to strings; [None] is [nil]. *)
Record Credentials := mkCredentials {
  AccessKeyId : option string;
  SecretAccessKey : option string;
  SessionToken : option string;
}.

End sts.

(** ** Package [creds] (second part of src/executors/main.go) *)

Module creds.
Import GoStrings GoFmt.

Record Creds := mkCreds {
  AccessKey : string;
  SecretKey : string;
  SessionToken : string;
  Region : string;
}.

(** [Creds{}] *)
Definition zero : Creds := mkCreds "" "" "" "".

Definition required : list string := ["AccessKey"; "SecretKey"; "SessionToken"].

(** The loop of [New] over the required keys; [Some] is its early return. *)
Fixpoint New_loop (keys : list string) (argCreds : gmap string string) : option error :=
  match keys with
  | [] => None
  | key :: rest =>
      match argCreds !! key with
      | Some elem =>
          if decide (elem = "")
          then Some (Errorf "missing required key for Creds: %s" [ArgS key])
          else New_loop rest argCreds
      | None => Some (Errorf "missing required key for Creds: %s" [ArgS key])
      end
  end.

Definition New (argCreds : gmap string string) : Creds * option error :=
  match New_loop required argCreds with
  | Some err => (zero, Some err)
  | None =>
      (mkCreds (argCreds !!! "AccessKey") (argCreds !!! "SecretKey")
               (argCreds !!! "SessionToken") (argCreds !!! "Region"), None)
  end.

(** [Translations] *)
Definition Translations : gmap string (gmap string string) :=
  <["envvar" := list_to_map [
      ("AWS_ACCESS_KEY_ID", "AccessKey");
      ("AWS_SECRET_ACCESS_KEY", "SecretKey");
      ("AWS_SESSION_TOKEN", "SessionToken");
      ("AWS_SECURITY_TOKEN", "SessionToken");
      ("AWS_DEFAULT_REGION", "Region")]]>
  (<["console" := list_to_map [
      ("sessionId", "AccessKey");
      ("sessionKey", "SecretKey");
      ("sessionToken", "SessionToken")]]> ∅).

(** [os.Getenv]: the empty string for a variable that is not set. *)
Definition Getenv (environ : gmap string string) (k : string) : string := environ !!! k.

(** One round of the loop of [NewFromEnv]. *)
Definition NewFromEnv_step (environ : gmap string string)
    (envCreds : gmap string string) (kv : string * string) : gmap string string :=
  if decide (envCreds !!! kv.2 = "")
  then <[kv.2 := Getenv environ kv.1]> envCreds
  else envCreds.

(** The map [NewFromEnv] has built when its loop ends. *)
Definition NewFromEnv_loop (range : ranger) (environ : gmap string string) : gmap string string :=
  foldl (NewFromEnv_step environ) ∅ (range (Translations !!! "envvar")).

Definition NewFromEnv (range : ranger) (environ : gmap string string) : Creds * option error :=
  New (NewFromEnv_loop range environ).

Definition toMap (c : Creds) : gmap string string :=
  list_to_map [
    ("AccessKey", AccessKey c);
    ("SecretKey", SecretKey c);
    ("SessionToken", SessionToken c);
    ("Region", Region c)].

Definition Translate (range : ranger) (c : Creds) (dictionary : gmap string string) : gmap string string :=
  let old := toMap c in
  foldl (λ new kv, <[kv.1 := old !!! kv.2]> new) ∅ (range dictionary).

(** The loop of [ToEnvVars] over the translated map. *)
Fixpoint ToEnvVars_loop (envCreds : list (string * string)) (res : list string) : list string :=
  match envCreds with
  | [] => res
  | kv :: rest =>
      if decide (kv.2 ≠ "")
      then ToEnvVars_loop rest (res ++ [Sprintf "export %s=%s" [ArgS kv.1; ArgS kv.2]])
      else ToEnvVars_loop rest res
  end.

Definition ToEnvVars (range : ranger) (c : Creds) : list string :=
  let envCreds := Translate range c (Translations !!! "envvar") in
  sort_Strings (ToEnvVars_loop (range envCreds) []).

(** What [GetCallerIdentity] answers when it returns no error.  The SDK
    hands the account and the ARN over as pointers to strings, which the
    functions below dereference; the record holds the two strings pointed to.
    An answer in which one of the pointers is nil, on which the function that
    dereferences it panics, is not a value of this type: what is proved about
    an answer is proved about the answers that carry an account and an
    ARN. *)
Record GetCallerIdentityOutput := mkIdentity {
  Account : string;
  Arn : string;
}.

(** The world outside the program.  The identity service: [sts_reply c n] is
    its answer to the round trip number [n] when asked with the credentials
    [c], and [sts_calls] counts the round trips made so far.  The terminal:
    [stdin_reply n] is what the read number [n] of a line from standard
    input returns, and [stdin_reads] counts the reads made so far. *)
Record World := mkWorld {
  sts_calls : nat;
  sts_reply : Creds → nat → GetCallerIdentityOutput + error;
  stdin_reads : nat;
  stdin_reply : nat → string * option error;
}.

(** [identity]: one round trip, nothing cached.  The result of the SDK call
    is the output on the left when its error is [nil], the error on the
    right otherwise. *)
Definition identity (c : Creds) (w : World) : (GetCallerIdentityOutput + error) * World :=
  (sts_reply w c (sts_calls w),
   mkWorld (S (sts_calls w)) (sts_reply w) (stdin_reads w) (stdin_reply w)).

(** [pieces[1]] of [partition], with Go's bounds check. *)
Definition partition_of (arn : string) : go (string * option error) :=
  let pieces := Split arn ":" in
  match pieces !! 1%nat with
  | Some p => Done (p, None)
  | None =>
      Panic (Sprintf "runtime error: index out of range [1] with length %d"
                     [ArgD (Z.of_nat (length pieces))])
  end.

Definition partition (c : Creds) (w : World) : go (string * option error) * World :=
  match identity c w with
  | (inr err, w') => (Done ("", Some err), w')
  | (inl id, w') => (partition_of (Arn id), w')
  end.

(** [AccountID] *)
Definition AccountID (c : Creds) (w : World) : (string * option error) * World :=
  match identity c w with
  | (inr err, w') => (("", Some err), w')
  | (inl id, w') => ((Account id, None), w')
  end.

(** [MfaArn] once the identity is known. *)
Definition MfaArn_of (arn : string) : string * option error :=
  if negb (Contains arn ":user/")
  then ("", Some (Errorf "failed to parse MFA ARN for non-user: %s" [ArgS arn]))
  else (Replace arn ":user/" ":mfa/" 1, None).

Definition MfaArn (c : Creds) (w : World) : (string * option error) * World :=
  match identity c w with
  | (inr err, w') => (("", Some err), w')
  | (inl id, w') => (MfaArn_of (Arn id), w')
  end.

(** Dereferencing [nil]. *)
Definition nil_dereference : string :=
  "runtime error: invalid memory address or nil pointer dereference".

(** [NewFromStsSdk]: the three pointers are dereferenced, then [New] is
    called on the map of the three values. *)
Definition NewFromStsSdk (stsCreds : option sts.Credentials) : go (Creds * option error) :=
  match stsCreds with
  | None => Panic nil_dereference
  | Some sc =>
      match sts.AccessKeyId sc, sts.SecretAccessKey sc, sts.SessionToken sc with
      | Some a, Some s, Some t =>
          Done (New (list_to_map [("AccessKey", a); ("SecretKey", s); ("SessionToken", t)]))
      | _, _, _ => Panic nil_dereference
      end
  end.

(** [namespaces] *)
Definition namespaces : gmap string string :=
  list_to_map [("aws", "aws.amazon"); ("aws-us-gov", "amazonaws-us-gov")].

Definition namespace (c : Creds) (w : World) : go (string * option error) * World :=
  match partition c w with
  | (Panic msg, w') => (Panic msg, w')
  | (Done (_, Some err), w') => (Done ("", Some err), w')
  | (Done (partition, None), w') =>
      match namespaces !! partition with
      | Some result => (Done (result, None), w')
      | None => (Done ("", Some (Errorf "unknown partition: %s" [ArgS partition])), w')
      end
  end.

(** [consoleTokenURL] *)
Definition consoleTokenURL : string := "https://signin.%s.com".

Definition ToSignoutURL (c : Creds) (w : World) : go (string * option error) * World :=
  match namespace c w with
  | (Panic msg, w') => (Panic msg, w')
  | (Done (_, Some err), w') => (Done ("", Some err), w')
  | (Done (namespace, None), w') =>
      let baseURL := Sprintf consoleTokenURL [ArgS namespace] in
      (Done (Join [baseURL; "/oauth?Action=logout"] "", None), w')
  end.

(** [arnChunks[len(arnChunks)-1]] of [SessionName], with Go's bounds check:
    a list without elements, were there one, would give the index -1. *)
Definition SessionName_of (arn : string) : go (string * option error) :=
  let arnChunks := Split arn "/" in
  match arnChunks !! (length arnChunks - 1)%nat with
  | Some oldName => Done (oldName, None)
  | None => Panic "runtime error: index out of range [-1]"
  end.

Definition SessionName (c : Creds) (w : World) : go (string * option error) * World :=
  match identity c w with
  | (inr err, w') => (Done ("", Some err), w')
  | (inl id, w') => (SessionName_of (Arn id), w')
  end.

(** [NextRoleArn]: the identity is asked once for the account and once
    more, by [partition], for the partition. *)
Definition NextRoleArn (c : Creds) (role inputAccountID : string) (w : World)
    : go (string * option error) * World :=
  if bool_decide (role = "")
  then (Done ("", Some (Errorf "role name cannot be empty" [])), w)
  else
    match identity c w with
    | (inr err, w1) => (Done ("", Some err), w1)
    | (inl id, w1) =>
        match partition c w1 with
        | (Panic msg, w2) => (Panic msg, w2)
        | (Done (_, Some err), w2) => (Done ("", Some err), w2)
        | (Done (partition, None), w2) =>
            let accountID :=
              if bool_decide (inputAccountID = "") then Account id else inputAccountID in
            (Done (Sprintf "arn:%s:iam::%s:role/%s" [ArgS partition; ArgS accountID; ArgS role],
                   None), w2)
        end
    end.

End creds.

(** ** Package [utils] (src/utils/creds.go) *)

Module utils.
Import GoFmt.

Record Creds := mkCreds {
  AccessKey : string;
  SecretKey : string;
  SessionToken : string;
}.

Definition required : list string := ["AccessKey"; "SecretKey"; "SessionToken"].

Fixpoint New_loop (keys : list string) (argCreds : gmap string string) : option error :=
  match keys with
  | [] => None
  | key :: rest =>
      match argCreds !! key with
      | Some elem =>
          if decide (elem = "")
          then Some (Errorf "Missing required key for Creds: %s" [ArgS key])
          else New_loop rest argCreds
      | None => Some (Errorf "Missing required key for Creds: %s" [ArgS key])
      end
  end.

(** [New] fills the receiver [c]. *)
Definition New (argCreds : gmap string string) (c : Creds) : option error * Creds :=
  match New_loop required argCreds with
  | Some err => (Some err, c)
  | None =>
      (None, mkCreds (argCreds !!! "AccessKey") (argCreds !!! "SecretKey")
                     (argCreds !!! "SessionToken"))
  end.

Definition translations : gmap string (gmap string string) :=
  <["envvar" := list_to_map [
      ("AWS_ACCESS_KEY_ID", "AccessKey");
      ("AWS_SECRET_ACCESS_KEY", "SecretKey");
      ("AWS_SESSION_TOKEN", "SessionToken");
      ("AWS_SECURITY_TOKEN", "SessionToken")]]>
  (<["console" := list_to_map [
      ("sessionId", "AccessKey");
      ("sessionKey", "SecretKey");
      ("sessionToken", "SessionToken")]]> ∅).

Definition toMap (c : Creds) : gmap string string :=
  list_to_map [
    ("AccessKey", AccessKey c);
    ("SecretKey", SecretKey c);
    ("SessionToken", SessionToken c)].

Definition translate (range : ranger) (c : Creds) (dictionary : gmap string string) : gmap string string :=
  let old := toMap c in
  foldl (λ new kv, <[kv.1 := old !!! kv.2]> new) ∅ (range dictionary).

(** The loop of [ToEnvVars]: every entry gives a line. *)
Fixpoint ToEnvVars_loop (envCreds : list (string * string)) (res : list string) : list string :=
  match envCreds with
  | [] => res
  | kv :: rest =>
      ToEnvVars_loop rest (res ++ [Sprintf "export %s=%s" [ArgS kv.1; ArgS kv.2]])
  end.

Definition ToEnvVars (range : ranger) (c : Creds) : list string :=
  let envCreds := translate range c (translations !!! "envvar") in
  sort_Strings (ToEnvVars_loop (range envCreds) []).

End utils.

(** ** Package [executors] (first part of src/executors/main.go) *)

Module executors.
Import GoStrings GoFmt Regexp.
Import creds.

(** [^\d{6}$] *)
Definition mfaCodeRegex : regex := Repeat 6 (Sym is_digit).

(** [[\w+=,.@-]] *)
Definition is_iam_char (c : ascii) : bool :=
  is_word c || Ascii.eqb c "+" || Ascii.eqb c "=" || Ascii.eqb c ","
  || Ascii.eqb c "." || Ascii.eqb c "@" || Ascii.eqb c "-".

(** [^arn:aws(?:-us-gov)?:iam::\d+:mfa/[\w+=,.@-]+$] *)
Definition mfaArnRegex : regex :=
  Cat (Lit "arn:aws")
 (Cat (Quest (Lit "-us-gov"))
 (Cat (Lit ":iam::")
 (Cat (Plus (Sym is_digit))
 (Cat (Lit ":mfa/")
      (Plus (Sym is_iam_char)))))).

(** [^[\w+=,.@-]+$] *)
Definition iamEntityRegex : regex := Plus (Sym is_iam_char).

(** [^\d{12}$] *)
Definition accountIDRegex : regex := Repeat 12 (Sym is_digit).

(** *** Lifetime *)

(** [lifetimeInt] is an [int64]; no arithmetic is done on it. *)
Record Lifetime := mkLifetime {
  lifetimeInt : Z;
}.

Definition SetLifetime (val : Z) (l : Lifetime) : option error * Lifetime :=
  if bool_decide (val ≠ 0%Z) && (bool_decide (val < 900)%Z || bool_decide (val > 3600)%Z)
  then (Some (Errorf "lifetime must be between 900 and 3600: %d" [ArgD val]), l)
  else (None, mkLifetime val).

Definition GetLifetime (l : Lifetime) : (Z * option error) * Lifetime :=
  let l' := if bool_decide (lifetimeInt l = 0%Z) then mkLifetime 3600 else l in
  ((lifetimeInt l', None), l').

(** *** Mfa *)

(** The interface [MfaPrompt]. *)
Record MfaPrompt := mkMfaPrompt {
  Prompt : World → (string * option error) * World;
}.

Record Mfa := mkMfa {
  useMfa : bool;
  mfaSerial : string;
  mfaCode : string;
  mfaPrompt : option MfaPrompt;
}.

Definition SetMfa (val : bool) (m : Mfa) : option error * Mfa :=
  (None, mkMfa val (mfaSerial m) (mfaCode m) (mfaPrompt m)).

Definition SetMfaSerial (val : string) (m : Mfa) : option error * Mfa :=
  if bool_decide (val = "") || MatchString mfaArnRegex val
  then (None, mkMfa (useMfa m) val (mfaCode m) (mfaPrompt m))
  else (Some (Errorf "MFA Serial is malformed: %s" [ArgS val]), m).

Definition SetMfaCode (val : string) (m : Mfa) : option error * Mfa :=
  if bool_decide (val = "") || MatchString mfaCodeRegex val
  then (None, mkMfa (useMfa m) (mfaSerial m) val (mfaPrompt m))
  else (Some (Errorf "MFA Code is malformed: %s" [ArgS val]), m).

Definition SetMfaPrompt (val : option MfaPrompt) (m : Mfa) : option error * Mfa :=
  (None, mkMfa (useMfa m) (mfaSerial m) (mfaCode m) val).

Definition GetMfa (m : Mfa) : (bool * option error) * Mfa :=
  let m' :=
    if negb (useMfa m) && bool_decide (mfaCode m ≠ "")
    then mkMfa true (mfaSerial m) (mfaCode m) (mfaPrompt m)
    else m in
  ((useMfa m', None), m').

(** [m.mfaSerial, err = c.MfaArn()] stores what [MfaArn] returns before the
    error is looked at. *)
Definition GetMfaSerial (m : Mfa) (w : World) : (string * option error) * Mfa * World :=
  if bool_decide (mfaSerial m = "") then
    let c := creds.zero in
    let '((v, err), w') := MfaArn c w in
    let m' := mkMfa (useMfa m) v (mfaCode m) (mfaPrompt m) in
    match err with
    | Some e => (("", Some e), m', w')
    | None => ((mfaSerial m', None), m', w')
    end
  else ((mfaSerial m, None), m, w).

(** A string given by its bytes. *)
Definition bytes (l : list nat) : string :=
  foldr (λ n s, String (ascii_of_nat n) s) "" l.

(** The characters for which [unicode.IsSpace] holds, in UTF-8: U+0009 to
    U+000D, U+0020, U+0085, U+00A0, U+1680, U+2000 to U+200A, U+2028, U+2029,
    U+202F, U+205F and U+3000. *)
Definition white_space : list string :=
  bytes <$> [
    [0x09]; [0x0A]; [0x0B]; [0x0C]; [0x0D]; [0x20];
    [0xC2; 0x85]; [0xC2; 0xA0];
    [0xE1; 0x9A; 0x80];
    [0xE2; 0x80; 0x80]; [0xE2; 0x80; 0x81]; [0xE2; 0x80; 0x82]; [0xE2; 0x80; 0x83];
    [0xE2; 0x80; 0x84]; [0xE2; 0x80; 0x85]; [0xE2; 0x80; 0x86]; [0xE2; 0x80; 0x87];
    [0xE2; 0x80; 0x88]; [0xE2; 0x80; 0x89]; [0xE2; 0x80; 0x8A];
    [0xE2; 0x80; 0xA8]; [0xE2; 0x80; 0xA9]; [0xE2; 0x80; 0xAF];
    [0xE2; 0x81; 0x9F];
    [0xE3; 0x80; 0x80]].

(** Whether [s] starts with one of the characters [ws], and if so the number
    of bytes of that character. *)
Definition leading (ws : list string) (s : string) : option nat :=
  String.length <$> find (HasPrefix s) ws.

(** The loop of [strings.TrimLeftFunc]: the characters [ws] are taken off the
    front of [s] one by one.  Every round takes at least one byte, so
    [String.length s] rounds are enough. *)
Fixpoint trim_left (ws : list string) (fuel : nat) (s : string) : string :=
  match fuel with
  | 0 => s
  | S f =>
      match leading ws s with
      | Some n => trim_left ws f (str_drop n s)
      | None => s
      end
  end.

(** [strings.TrimSpace]: the white space, as Unicode defines it, is taken off
    the front of [s] and then off its back; bytes that are not the UTF-8
    encoding of a character are read as U+FFFD, which is no white space.  At
    the back the characters are read from the last byte on: the reversed
    string is read with the reversed encodings. *)
Definition TrimSpace (s : string) : string :=
  let t := trim_left white_space (String.length s) s in
  String.rev (trim_left (String.rev <$> white_space) (String.length t) (String.rev t)).

(** [DefaultMfaPrompt.Prompt]: one line read from standard input; the
    prompt written to standard error is not modelled. *)
Definition DefaultMfaPrompt : MfaPrompt :=
  mkMfaPrompt (λ w,
    let '(mfa, err) := stdin_reply w (stdin_reads w) in
    let w' := mkWorld (sts_calls w) (sts_reply w) (S (stdin_reads w)) (stdin_reply w) in
    match err with
    | Some e => (("", Some e), w')
    | None => ((TrimSpace mfa, None), w')
    end).

Definition GetMfaPrompt (m : Mfa) : (MfaPrompt * option error) * Mfa :=
  match mfaPrompt m with
  | None =>
      ((DefaultMfaPrompt, None),
       mkMfa (useMfa m) (mfaSerial m) (mfaCode m) (Some DefaultMfaPrompt))
  | Some p => ((p, None), m)
  end.

Definition GetMfaCode (m : Mfa) (w : World) : (string * option error) * Mfa * World :=
  if bool_decide (mfaCode m = "") then
    let '((prompt, err), m1) := GetMfaPrompt m in
    match err with
    | Some e => (("", Some e), m1, w)
    | None =>
        let '((mfa, err'), w') := Prompt prompt w in
        match err' with
        | Some e => (("", Some e), m1, w')
        | None =>
            let m2 := mkMfa (useMfa m1) (mfaSerial m1) mfa (mfaPrompt m1) in
            ((mfaCode m2, None), m2, w')
        end
    end
  else ((mfaCode m, None), m, w).

(** The requests [configureMfa] knows, by the two fields it writes, and any
    other value of the interface by the name of its type, as [%T] prints it.
    The two requests are what the pointers [*sts.AssumeRoleInput] and
    [*sts.GetSessionTokenInput] point to; a nil pointer of one of these types,
    on which the assignment to the field panics, is not a value of this
    type. *)
Inductive params :=
| AssumeRoleInput (TokenCode SerialNumber : option string)
| GetSessionTokenInput (TokenCode SerialNumber : option string)
| OtherParams (type_name : string).

Definition configureMfa (paramsIface : params) (m : Mfa) (w : World)
    : (option error * params) * Mfa * World :=
  let '((useMfa, err), m1) := GetMfa m in
  match err with
  | Some e => ((Some e, paramsIface), m1, w)
  | None =>
      if negb useMfa then ((None, paramsIface), m1, w)
      else
        let '((mfaCode, err1), m2, w2) := GetMfaCode m1 w in
        match err1 with
        | Some e => ((Some e, paramsIface), m2, w2)
        | None =>
            let '((mfaSerial, err2), m3, w3) := GetMfaSerial m2 w2 in
            match err2 with
            | Some e => ((Some e, paramsIface), m3, w3)
            | None =>
                match paramsIface with
                | AssumeRoleInput _ _ =>
                    ((None, AssumeRoleInput (Some mfaCode) (Some mfaSerial)), m3, w3)
                | GetSessionTokenInput _ _ =>
                    ((None, GetSessionTokenInput (Some mfaCode) (Some mfaSerial)), m3, w3)
                | OtherParams t =>
                    ((Some (Errorf "expected AssumeRoleInput or GetSessionTokenInput, received %T"
                                   [ArgS t]), paramsIface), m3, w3)
                end
            end
        end
  end.

(** A call of a method of [Mfa], and what it leaves of the receiver and of
    the world. *)
Inductive call :=
| CallSetMfa (val : bool)
| CallSetMfaSerial (val : string)
| CallSetMfaCode (val : string)
| CallSetMfaPrompt (val : option MfaPrompt)
| CallGetMfa
| CallGetMfaSerial
| CallGetMfaCode
| CallGetMfaPrompt
| CallConfigureMfa (paramsIface : params).

Definition run (st : Mfa * World) (c : call) : Mfa * World :=
  match c with
  | CallSetMfa val => ((SetMfa val st.1).2, st.2)
  | CallSetMfaSerial val => ((SetMfaSerial val st.1).2, st.2)
  | CallSetMfaCode val => ((SetMfaCode val st.1).2, st.2)
  | CallSetMfaPrompt val => ((SetMfaPrompt val st.1).2, st.2)
  | CallGetMfa => ((GetMfa st.1).2, st.2)
  | CallGetMfaSerial => let '(_, m, w) := GetMfaSerial st.1 st.2 in (m, w)
  | CallGetMfaCode => let '(_, m, w) := GetMfaCode st.1 st.2 in (m, w)
  | CallGetMfaPrompt => ((GetMfaPrompt st.1).2, st.2)
  | CallConfigureMfa paramsIface =>
      let '(_, m, w) := configureMfa paramsIface st.1 st.2 in (m, w)
  end.

Definition run_all (st : Mfa * World) (calls : list call) : Mfa * World :=
  foldl run st calls.

(** [GetMfaSerial] called twice in a row: both results, and the number of
    round trips to the identity service the two calls made. *)
Definition GetMfaSerial_twice (m : Mfa) (w : World)
    : (string * option error) * (string * option error) * nat :=
  let '(r1, m1, w1) := GetMfaSerial m w in
  let '(r2, m2, w2) := GetMfaSerial m1 w1 in
  (r1, r2, sts_calls w2 - sts_calls w).

End executors.

(** * Properties *)

(** ** Strings *)

Module StringFacts.
Import GoStrings.

Lemma app_cons c (s t : string) : String c s +:+ t = String c (s +:+ t).
Proof. reflexivity. Qed.

Lemma app_nil_l (s : string) : "" +:+ s = s.
Proof. reflexivity. Qed.

Lemma app_nil_r (s : string) : s +:+ "" = s.
Proof. induction s as [|c s IH]; [done|]. by rewrite app_cons, IH. Qed.

Lemma app_assoc (s t u : string) : (s +:+ t) +:+ u = s +:+ t +:+ u.
Proof. induction s as [|c s IH]; [done|]. by rewrite !app_cons, IH. Qed.

Lemma app_length (s t : string) :
  String.length (s +:+ t) = String.length s + String.length t.
Proof. induction s as [|c s IH]; [done|]. rewrite app_cons. simpl. by rewrite IH. Qed.

Lemma app_eq_nil (s t : string) : s +:+ t = "" → s = "" ∧ t = "".
Proof. destruct s; [done|]. rewrite app_cons. discriminate. Qed.

Lemma length_zero (s : string) : String.length s = 0 → s = "".
Proof. by destruct s. Qed.

Lemma str_take_app (s t : string) : str_take (String.length s) (s +:+ t) = s.
Proof. induction s as [|c s IH]; [by destruct t|]. rewrite app_cons. simpl. by rewrite IH. Qed.

Lemma str_drop_app (s t : string) : str_drop (String.length s) (s +:+ t) = t.
Proof. induction s as [|c s IH]; [by destruct t|]. rewrite app_cons. simpl. by rewrite IH. Qed.

Lemma str_take_length n (s : string) :
  (n ≤ String.length s)%nat → String.length (str_take n s) = n.
Proof.
  revert s. induction n as [|n IH]; intros [|c s] Hn; simpl in *; try done; try lia.
  rewrite IH; [done | lia].
Qed.

Lemma HasPrefix_app (s p : string) : HasPrefix (p +:+ s) p = true.
Proof.
  induction p as [|a p IH]; [by destruct s|].
  rewrite app_cons. simpl. by rewrite Ascii.eqb_refl.
Qed.

Lemma HasPrefix_inv (s p : string) :
  HasPrefix s p = true → s = p +:+ str_drop (String.length p) s.
Proof.
  revert s. induction p as [|a p IH]; intros s H.
  - by destruct s.
  - destruct s as [|b s]; [done|]. simpl in H.
    destruct (Ascii.eqb a b) eqn:E; [|done].
    apply Ascii.eqb_eq in E as ->. rewrite app_cons. simpl. f_equal. by apply IH.
Qed.

(** [s] holds [substr]: it is [pre ++ substr ++ post] for some [pre] and
    [post]. *)
Definition occurs (substr s : string) : Prop :=
  ∃ pre post, s = pre +:+ substr +:+ post.

Lemma Index_unfold (s substr : string) :
  Index s substr =
  if HasPrefix s substr then Some 0
  else match s with
       | "" => None
       | String _ r => S <$> Index r substr
       end.
Proof. by destruct s. Qed.

(** [Index] finds an occurrence. *)
Lemma Index_Some (s substr : string) i :
  Index s substr = Some i →
  s = str_take i s +:+ substr +:+ str_drop (i + String.length substr) s
  ∧ String.length (str_take i s) = i.
Proof.
  revert i. induction s as [|c s IH]; intros i; rewrite Index_unfold.
  - destruct (HasPrefix "" substr) eqn:E; [|done].
    intros [= <-]. split; [|done]. by apply HasPrefix_inv in E.
  - destruct (HasPrefix (String c s) substr) eqn:E.
    + intros [= <-]. split; [|done]. by apply HasPrefix_inv in E.
    + destruct (Index s substr) as [j|] eqn:Ej; [|done].
      intros [= <-]. destruct (IH j eq_refl) as [IH1 IH2].
      simpl. rewrite app_cons, IH2. split; [|done]. by f_equal.
Qed.

(** [Index] finds the first occurrence. *)
Lemma Index_first (pre substr post : string) :
  ∃ i, Index (pre +:+ substr +:+ post) substr = Some i ∧ (i ≤ String.length pre)%nat.
Proof.
  induction pre as [|c pre IH].
  - exists 0. split; [|done]. rewrite app_nil_l, Index_unfold.
    by rewrite HasPrefix_app.
  - destruct IH as (i & Hi & Hle). rewrite app_cons, Index_unfold.
    destruct (HasPrefix _ substr).
    + exists 0. split; [done | lia].
    + exists (S i). rewrite Hi. split; [done | simpl; lia].
Qed.

Lemma Index_None (s substr : string) : Index s substr = None ↔ ¬ occurs substr s.
Proof.
  split.
  - intros H (pre & post & ->).
    destruct (Index_first pre substr post) as (i & Hi & _). congruence.
  - intros H. destruct (Index s substr) as [i|] eqn:E; [|done].
    destruct H. apply Index_Some in E as [E _]. by eexists _, _.
Qed.

Lemma Contains_spec (s substr : string) : Contains s substr = true ↔ occurs substr s.
Proof.
  unfold Contains. rewrite bool_decide_eq_true.
  destruct (Index s substr) as [i|] eqn:E.
  - split; [|eauto]. intros _. apply Index_Some in E as [E _]. by eexists _, _.
  - split; [by intros [? ?]|]. intros H. by apply Index_None in E.
Qed.

(** Where the first occurrence is known, [Index] returns it. *)
Lemma Index_at (pre substr post : string) :
  (∀ pre' post', pre +:+ substr +:+ post = pre' +:+ substr +:+ post' →
                 (String.length pre ≤ String.length pre')%nat) →
  Index (pre +:+ substr +:+ post) substr = Some (String.length pre).
Proof.
  intros Hmin. destruct (Index_first pre substr post) as (i & Hi & Hle).
  rewrite Hi. f_equal. apply Index_Some in Hi as [Hi Hlen].
  apply Hmin in Hi. lia.
Qed.

(** Unfolds a formatted message with a literal format. *)
Ltac render :=
  unfold Errorf; cbn [GoFmt.Sprintf GoFmt.verb]; rewrite ?app_nil_r.

End StringFacts.

(** ** Patterns: the matcher decides the language *)

Module RegexpFacts.
Import Regexp StringFacts.

Lemma matches_nil_nullable r s : matches r s → s = "" → nullable r = true.
Proof.
  induction 1 as [| | r1 r2 s1 s2 _ IH1 _ IH2 | r1 r2 s _ IH | r1 r2 s _ IH | |];
    intros Hs; simpl; try done.
  - apply app_eq_nil in Hs as [-> ->]. by rewrite IH1, IH2.
  - by rewrite IH.
  - rewrite IH by done. apply orb_true_r.
Qed.

Lemma nullable_spec r : nullable r = true ↔ matches r "".
Proof.
  split; [|intros H; by eapply matches_nil_nullable].
  induction r as [| | p | r1 IH1 r2 IH2 | r1 IH1 r2 IH2 | r IH]; simpl; try done.
  - intros _. constructor.
  - intros [H1 H2]%andb_true_iff. apply (MCat r1 r2 "" ""); auto.
  - intros [H|H]%orb_true_iff; [apply MAltL | apply MAltR]; auto.
  - intros _. constructor.
Qed.

Lemma deriv_sound c r s : matches (deriv c r) s → matches r (String c s).
Proof.
  revert s. induction r as [| | p | r1 IH1 r2 IH2 | r1 IH1 r2 IH2 | r IH];
    intros s; simpl.
  - inversion 1.
  - inversion 1.
  - destruct (p c) eqn:E; inversion 1; subst. by constructor.
  - assert (matches (Cat (deriv c r1) r2) s → matches (Cat r1 r2) (String c s)) as HL.
    { inversion 1; subst. rewrite <-app_cons. constructor; auto. }
    destruct (nullable r1) eqn:E; [|done].
    inversion 1; subst; [auto|].
    apply (MCat r1 r2 "" (String c s)); [by apply nullable_spec | auto].
  - inversion 1; subst; [apply MAltL | apply MAltR]; auto.
  - inversion 1; subst. rewrite <-app_cons. constructor; auto.
Qed.

Lemma deriv_complete c r s0 :
  matches r s0 → ∀ s, s0 = String c s → matches (deriv c r) s.
Proof.
  induction 1 as [| p c0 Hp | r1 r2 s1 s2 H1 IH1 H2 IH2 | r1 r2 s0 _ IH
                 | r1 r2 s0 _ IH | | r s1 s2 H1 IH1 H2 IH2];
    intros s Hs; simpl; try done.
  - injection Hs as -> <-. rewrite Hp. constructor.
  - destruct s1 as [|c1 s1].
    + rewrite app_nil_l in Hs. rewrite (matches_nil_nullable _ _ H1 eq_refl).
      apply MAltR; auto.
    + rewrite app_cons in Hs. injection Hs as -> <-.
      assert (matches (Cat (deriv c r1) r2) (s1 +:+ s2)) by (constructor; auto).
      destruct (nullable r1); [by apply MAltL | done].
  - apply MAltL; auto.
  - apply MAltR; auto.
  - destruct s1 as [|c1 s1].
    + rewrite app_nil_l in Hs. apply (IH2 s Hs).
    + rewrite app_cons in Hs. injection Hs as -> <-. constructor; auto.
Qed.

Lemma deriv_spec c r s : matches (deriv c r) s ↔ matches r (String c s).
Proof. split; [apply deriv_sound | intros H; by eapply deriv_complete]. Qed.

(** [MatchString] holds exactly on the language of the pattern. *)
Lemma MatchString_spec r s : MatchString r s = true ↔ matches r s.
Proof.
  revert r. induction s as [|c s IH]; intros r; simpl.
  - apply nullable_spec.
  - rewrite IH. apply deriv_spec.
Qed.

(** *** The languages of the shapes the program's patterns are made of *)

Lemma matches_Cat r1 r2 s :
  matches (Cat r1 r2) s ↔ ∃ s1 s2, s = s1 +:+ s2 ∧ matches r1 s1 ∧ matches r2 s2.
Proof.
  split.
  - inversion 1; subst. eauto.
  - intros (s1 & s2 & -> & H1 & H2). by constructor.
Qed.

Lemma matches_Chr c s : matches (Chr c) s ↔ s = String c "".
Proof.
  split.
  - inversion 1 as [| p c0 Hp | | | | |]; subst. by apply Ascii.eqb_eq in Hp as ->.
  - intros ->. constructor. apply Ascii.eqb_refl.
Qed.

Lemma matches_Lit l s : matches (Lit l) s ↔ s = l.
Proof.
  revert s. induction l as [|c l IH]; intros s; simpl.
  - split; [by inversion 1 | intros ->; constructor].
  - rewrite matches_Cat. split.
    + intros (s1 & s2 & -> & ->%matches_Chr & ->%IH). done.
    + intros ->. exists (String c ""), l. by rewrite matches_Chr, IH.
Qed.

Lemma matches_Lit_Cat l r s :
  matches (Cat (Lit l) r) s ↔ ∃ t, s = l +:+ t ∧ matches r t.
Proof.
  rewrite matches_Cat. split.
  - intros (s1 & s2 & -> & ->%matches_Lit & H). eauto.
  - intros (t & -> & H). exists l, t. by rewrite matches_Lit.
Qed.

Lemma matches_Quest r s : matches (Quest r) s ↔ matches r s ∨ s = "".
Proof.
  split.
  - inversion 1 as [| | | ? ? ? H1 | ? ? ? H1 | |]; subst; [by left|].
    right. by inversion H1.
  - intros [H| ->]; [by apply MAltL | apply MAltR; constructor].
Qed.

Lemma matches_Sym p s : matches (Sym p) s ↔ ∃ c, s = String c "" ∧ p c = true.
Proof.
  split.
  - inversion 1; subst. eauto.
  - intros (c & -> & Hc). by constructor.
Qed.

Lemma matches_Star_Sym_all p r s :
  matches r s → r = Star (Sym p) → all_bytes p s = true.
Proof.
  induction 1 as [| | | | | | r s1 s2 H1 _ _ IH2]; intros Hr; try done.
  injection Hr as ->. apply matches_Sym in H1 as (c & -> & Hc).
  rewrite app_cons, app_nil_l. simpl. by rewrite Hc, IH2.
Qed.

Lemma matches_Star_Sym p s : matches (Star (Sym p)) s ↔ all_bytes p s = true.
Proof.
  split; [intros H; by eapply matches_Star_Sym_all|].
  induction s as [|c s IH]; simpl; [constructor|].
  intros [Hc Hs]%andb_true_iff.
  apply (MStarS (Sym p) (String c "") s); [by constructor | auto].
Qed.

(** [[p]+]: one byte of the class or more. *)
Lemma matches_Plus_Sym p s :
  matches (Plus (Sym p)) s ↔ s ≠ "" ∧ all_bytes p s = true.
Proof.
  unfold Plus. rewrite matches_Cat. split.
  - intros (s1 & s2 & -> & (c & -> & Hc)%matches_Sym & H2%matches_Star_Sym).
    rewrite app_cons, app_nil_l. simpl. by rewrite Hc, H2.
  - destruct s as [|c s]; [by intros []|]. simpl.
    intros [_ [Hc Hs]%andb_true_iff].
    exists (String c ""), s. by rewrite matches_Sym, matches_Star_Sym; eauto.
Qed.

(** [[p]{n}]: exactly [n] bytes of the class. *)
Lemma matches_Repeat_Sym n p s :
  matches (Repeat n (Sym p)) s ↔ String.length s = n ∧ all_bytes p s = true.
Proof.
  revert s. induction n as [|n IH]; intros s; simpl.
  - split.
    + by inversion 1.
    + intros [->%length_zero _]. constructor.
  - rewrite matches_Cat. split.
    + intros (s1 & s2 & -> & (c & -> & Hc)%matches_Sym & [<- H2]%IH).
      rewrite app_cons, app_nil_l. simpl. by rewrite Hc, H2.
    + destruct s as [|c s]; simpl; [by intros [? _]|].
      intros [[= Hn] [Hc Hs]%andb_true_iff].
      exists (String c ""), s. rewrite matches_Sym, IH. split_and!; eauto.
Qed.

End RegexpFacts.

(** ** Credentials *)

Module CredsSpec.
Import GoStrings GoFmt StringFacts.
Import creds.

(** *** New *)

(** The key [k] is present in [m] with a value that is not empty. *)
Definition filled (m : gmap string string) (k : string) : Prop :=
  ∃ v, m !! k = Some v ∧ v ≠ "".

Lemma New_loop_cons key rest (m : gmap string string) :
  (filled m key ∧ New_loop (key :: rest) m = New_loop rest m)
  ∨ (¬ filled m key
     ∧ New_loop (key :: rest) m
       = Some (errorString ("missing required key for Creds: " +:+ key))).
Proof.
  unfold filled. simpl. destruct (m !! key) as [v|] eqn:E.
  - destruct (decide (v = "")) as [->|Hv].
    + right. split; [|by render]. by intros (v & [= <-] & ?).
    + left. eauto.
  - right. split; [|by render]. by intros (v & [=] & ?).
Qed.

(** C3: [New m] succeeds if and only if AccessKey, SecretKey and
    SessionToken are present in [m] with values that are not empty, whatever
    Region is; when it succeeds the credentials carry these three values and
    the Region of [m], empty when [m] has none; when it fails the error names
    the first key, in the order AccessKey, SecretKey, SessionToken, that is
    absent or empty. *)
Theorem New_spec (m : gmap string string) :
  ((New m).2 = None ↔
     filled m "AccessKey" ∧ filled m "SecretKey" ∧ filled m "SessionToken")
  ∧ ((New m).2 = None →
       (New m).1 = mkCreds (default "" (m !! "AccessKey")) (default "" (m !! "SecretKey"))
                           (default "" (m !! "SessionToken")) (default "" (m !! "Region")))
  ∧ (¬ filled m "AccessKey" →
       New m = (zero, Some (errorString "missing required key for Creds: AccessKey")))
  ∧ (filled m "AccessKey" → ¬ filled m "SecretKey" →
       New m = (zero, Some (errorString "missing required key for Creds: SecretKey")))
  ∧ (filled m "AccessKey" → filled m "SecretKey" → ¬ filled m "SessionToken" →
       New m = (zero, Some (errorString "missing required key for Creds: SessionToken"))).
Proof.
  unfold New, required.
  destruct (New_loop_cons "AccessKey" ["SecretKey"; "SessionToken"] m) as [[H1 ->] | [H1 ->]];
    [|simpl; split_and!; solve [reflexivity | congruence | tauto | split; [congruence | tauto]]].
  destruct (New_loop_cons "SecretKey" ["SessionToken"] m) as [[H2 ->] | [H2 ->]];
    [|simpl; split_and!; solve [reflexivity | congruence | tauto | split; [congruence | tauto]]].
  destruct (New_loop_cons "SessionToken" [] m) as [[H3 ->] | [H3 ->]];
    [|simpl; split_and!; solve [reflexivity | congruence | tauto | split; [congruence | tauto]]].
  simpl. split_and!; tauto.
Qed.

(** *** MfaArn *)

(** [pre] is what comes before the first occurrence of [substr] in [s], and
    [post] what comes after it. *)
Definition first_occurrence (substr pre post s : string) : Prop :=
  s = pre +:+ substr +:+ post
  ∧ ∀ pre' post', s = pre' +:+ substr +:+ post' →
                  (String.length pre ≤ String.length pre')%nat.

Lemma Index_first_occurrence (substr pre post s : string) :
  first_occurrence substr pre post s → Index s substr = Some (String.length pre).
Proof. intros [-> Hmin]. by apply Index_at. Qed.

Lemma first_occurrence_Index (substr pre post : string) :
  Index (pre +:+ substr +:+ post) substr = Some (String.length pre) →
  first_occurrence substr pre post (pre +:+ substr +:+ post).
Proof.
  intros H. split; [done|]. intros pre' post' E. rewrite E in H.
  destruct (Index_first pre' substr post') as (i & Hi & Hle). congruence.
Qed.

Lemma occurs_first_occurrence (substr s : string) :
  occurs substr s → ∃ pre post, first_occurrence substr pre post s.
Proof.
  intros Hocc. destruct (Index s substr) as [i|] eqn:E;
    [|by apply Index_None in E].
  pose proof (Index_Some _ _ _ E) as [Hs Hlen].
  exists (str_take i s), (str_drop (i + String.length substr) s).
  pose proof (first_occurrence_Index substr (str_take i s)
                (str_drop (i + String.length substr) s)) as H.
  rewrite <-Hs, Hlen in H. by apply H.
Qed.

Lemma str_drop_app2 (s t u : string) :
  str_drop (String.length s + String.length t) (s +:+ t +:+ u) = u.
Proof. by rewrite <-app_length, <-app_assoc, str_drop_app. Qed.

(** [strings.Replace(s, old, new, 1)] rewrites the first occurrence. *)
Lemma Replace_first (old new pre post s : string) :
  first_occurrence old pre post s → Replace s old new 1 = pre +:+ new +:+ post.
Proof.
  intros H. pose proof (Index_first_occurrence _ _ _ _ H) as Hi.
  destruct H as [-> _]. simpl. rewrite Hi.
  by rewrite str_take_app, str_drop_app2.
Qed.

Lemma MfaArn_of_user (pre post arn : string) :
  first_occurrence ":user/" pre post arn →
  MfaArn_of arn = (pre +:+ ":mfa/" +:+ post, None).
Proof.
  intros H. unfold MfaArn_of.
  assert (Contains arn ":user/" = true) as ->.
  { apply Contains_spec. destruct H as [-> _]. by eexists _, _. }
  simpl negb. cbv iota. by rewrite (Replace_first _ _ _ _ _ H).
Qed.

Lemma MfaArn_of_non_user (arn : string) :
  ¬ occurs ":user/" arn →
  MfaArn_of arn
  = ("", Some (errorString ("failed to parse MFA ARN for non-user: " +:+ arn))).
Proof.
  intros H. unfold MfaArn_of.
  assert (Contains arn ":user/" = false) as ->.
  { apply not_true_is_false. by rewrite Contains_spec. }
  simpl negb. cbv iota. by render.
Qed.

(** What [MfaArn] returns without an error is not empty. *)
Lemma MfaArn_of_nonempty (arn v : string) : MfaArn_of arn = (v, None) → v ≠ "".
Proof.
  unfold MfaArn_of. destruct (Contains arn ":user/") eqn:E; cbn [negb]; [|by intros [=]].
  apply Contains_spec, occurs_first_occurrence in E as (pre & post & H).
  rewrite (Replace_first _ _ _ _ _ H). intros [= <-] [_ [=]]%app_eq_nil.
Qed.

(** C6: when the identity service answers with an ARN that holds [:user/],
    [MfaArn] returns that ARN with the first [:user/] replaced by [:mfa/];
    when the ARN holds no [:user/], as the ARN of a role, it fails with the
    not-a-user error. *)
Theorem MfaArn_spec (c : Creds) (w : World) (id : GetCallerIdentityOutput) :
  sts_reply w c (sts_calls w) = inl id →
  (∀ pre post, first_occurrence ":user/" pre post (Arn id) →
     (MfaArn c w).1 = (pre +:+ ":mfa/" +:+ post, None))
  ∧ (occurs ":user/" (Arn id) →
       ∃ pre post, first_occurrence ":user/" pre post (Arn id)
                   ∧ (MfaArn c w).1 = (pre +:+ ":mfa/" +:+ post, None))
  ∧ (¬ occurs ":user/" (Arn id) →
       (MfaArn c w).1
       = ("", Some (errorString ("failed to parse MFA ARN for non-user: " +:+ Arn id)))).
Proof.
  intros Hid. unfold MfaArn, identity. rewrite Hid. simpl. split_and!.
  - intros pre post H. by apply MfaArn_of_user.
  - intros (pre & post & H)%occurs_first_occurrence.
    exists pre, post. split; [done|]. by apply MfaArn_of_user.
  - apply MfaArn_of_non_user.
Qed.

(** The identity service answering every question with the same identity. *)
Definition world_of (id : GetCallerIdentityOutput) : World :=
  mkWorld 0 (λ _ _, inl id) 0 (λ _, ("", None)).

Definition alice : GetCallerIdentityOutput :=
  mkIdentity "111111111111" "arn:aws:iam::111111111111:user/alice".

Definition role_foo : GetCallerIdentityOutput :=
  mkIdentity "111111111111" "arn:aws:iam::111111111111:role/foo".

Lemma MfaArn_spec_witness :
  sts_reply (world_of alice) zero (sts_calls (world_of alice)) = inl alice
  ∧ (MfaArn zero (world_of alice)).1 = ("arn:aws:iam::111111111111:mfa/alice", None).
Proof.
  split; [reflexivity|].
  apply (proj1 (MfaArn_spec zero (world_of alice) alice eq_refl)
           "arn:aws:iam::111111111111" "alice").
  apply (first_occurrence_Index ":user/" "arn:aws:iam::111111111111" "alice").
  reflexivity.
Defined.

Example MfaArn_role :
  (MfaArn zero (world_of role_foo)).1
  = ("", Some (errorString
       "failed to parse MFA ARN for non-user: arn:aws:iam::111111111111:role/foo")).
Proof. reflexivity. Qed.

(** *** partition *)

Lemma HasPrefix_char c x r : HasPrefix (String x r) (String c "") = Ascii.eqb c x.
Proof. simpl. by destruct (Ascii.eqb c x). Qed.

Lemma not_occurs_cons c x (a : string) :
  ¬ occurs (String c "") (String x a) → x ≠ c ∧ ¬ occurs (String c "") a.
Proof.
  intros H. split.
  - intros ->. apply H. by exists "", a.
  - intros (pre & post & ->). apply H. by exists (String x pre), post.
Qed.

(** The first separator comes after a run of bytes that holds none. *)
Lemma Index_char_first (a : string) c (post : string) :
  ¬ occurs (String c "") a →
  Index (a +:+ String c "" +:+ post) (String c "") = Some (String.length a).
Proof.
  induction a as [|x a IH]; intros H.
  - by rewrite app_nil_l, Index_unfold, HasPrefix_app.
  - apply not_occurs_cons in H as [Hx Ha].
    rewrite app_cons, Index_unfold, HasPrefix_char.
    assert (Ascii.eqb c x = false) as -> by (apply Ascii.eqb_neq; congruence).
    by rewrite (IH Ha).
Qed.

Lemma genSplit_S f (s sep : string) :
  genSplit (S f) s sep
  = match Index s sep with
    | None => [s]
    | Some m => str_take m s :: genSplit f (str_drop (m + String.length sep) s) sep
    end.
Proof. reflexivity. Qed.

Lemma genSplit_nonempty f (s sep : string) : ∃ x l, genSplit f s sep = x :: l.
Proof.
  destruct f; [by eexists _, _|].
  rewrite genSplit_S. destruct (Index s sep); by eexists _, _.
Qed.

Lemma str_drop_length n (s : string) :
  String.length (str_drop n s) = String.length s - n.
Proof.
  revert s. induction n as [|n IH]; intros [|c s]; simpl; done.
Qed.

Lemma Index_nil (sep : string) : sep ≠ "" → Index "" sep = None.
Proof. by destruct sep. Qed.

(** [String.length s] rounds are enough for [genSplit]: more rounds give the
    same pieces. *)
Lemma genSplit_fuel f1 f2 (s sep : string) :
  sep ≠ "" → (String.length s ≤ f1)%nat → (String.length s ≤ f2)%nat →
  genSplit f1 s sep = genSplit f2 s sep.
Proof.
  intros Hsep. revert f2 s. induction f1 as [|f1 IH]; intros [|f2] s H1 H2; try done.
  - assert (s = "") as -> by (apply length_zero; lia).
    by rewrite genSplit_S, Index_nil.
  - assert (s = "") as -> by (apply length_zero; lia).
    by rewrite genSplit_S, Index_nil.
  - rewrite !genSplit_S. destruct (Index s sep) as [m|]; [|done].
    f_equal. assert (String.length sep ≠ 0) by (destruct sep; simpl; congruence).
    apply IH; rewrite str_drop_length; lia.
Qed.

Lemma Split_fuel f (s sep : string) :
  sep ≠ "" → (String.length s ≤ f)%nat → genSplit f s sep = Split s sep.
Proof. intros Hsep Hf. by apply genSplit_fuel. Qed.

(** The first piece of what follows the first separator. *)
Lemma genSplit_head f (b rest : string) :
  ¬ occurs ":" b → rest = "" ∨ HasPrefix rest ":" = true →
  (String.length (b +:+ rest) ≤ f)%nat →
  genSplit f (b +:+ rest) ":" !! 0%nat = Some b.
Proof.
  intros Hb Hrest Hlen. destruct f as [|f].
  - assert (b +:+ rest = "") as E by (apply length_zero; lia).
    rewrite E. by apply app_eq_nil in E as [-> _].
  - rewrite genSplit_S. destruct Hrest as [-> | Hrest].
    + rewrite app_nil_r. by apply Index_None in Hb as ->.
    + apply HasPrefix_inv in Hrest. rewrite Hrest.
      rewrite (Index_char_first b ":" _ Hb). simpl. by rewrite str_take_app.
Qed.

Lemma Split_no_sep (s sep : string) : ¬ occurs sep s → Split s sep = [s].
Proof.
  intros H%Index_None. unfold Split. destruct (String.length s); [done|].
  by rewrite genSplit_S, H.
Qed.

Lemma partition_of_in_bounds (arn : string) :
  occurs ":" arn →
  ∃ p, partition_of arn = Done (p, None) ∧ Split arn ":" !! 1%nat = Some p.
Proof.
  intros H. unfold partition_of, Split.
  destruct (Index arn ":") as [m|] eqn:E; [|by apply Index_None in E].
  destruct (String.length arn) as [|f] eqn:El.
  { apply length_zero in El as ->. by vm_compute in E. }
  rewrite genSplit_S, E.
  destruct (genSplit_nonempty f (str_drop (m + String.length ":") arn) ":") as (p & l & ->).
  by exists p.
Qed.

Lemma partition_of_second (a b rest : string) :
  ¬ occurs ":" a → ¬ occurs ":" b → rest = "" ∨ HasPrefix rest ":" = true →
  partition_of (a +:+ ":" +:+ b +:+ rest) = Done (b, None).
Proof.
  intros Ha Hb Hrest. unfold partition_of, Split.
  assert (String.length (a +:+ ":" +:+ b +:+ rest)
          = S (String.length a + String.length (b +:+ rest))) as ->
    by (rewrite !app_length; simpl; lia).
  rewrite genSplit_S, (Index_char_first a ":" _ Ha), str_take_app, str_drop_app2.
  change ((a :: ?l) !! 1%nat) with (l !! 0%nat).
  rewrite genSplit_head; [done..|lia].
Qed.

Lemma partition_of_no_colon (arn : string) :
  ¬ occurs ":" arn →
  partition_of arn = Panic "runtime error: index out of range [1] with length 1".
Proof. intros H. unfold partition_of. by rewrite (Split_no_sep _ _ H). Qed.

(** C8: [partition] returns [pieces[1]] of the ARN cut at its colons, with no
    check of the number of pieces.  When the ARN the identity service answers
    holds a colon the index is in bounds and the result is the piece between
    the first colon and the next one (or the end); when it holds none,
    [Split] gives one piece and the access panics. *)
Theorem partition_spec (c : Creds) (w : World) (id : GetCallerIdentityOutput) :
  sts_reply w c (sts_calls w) = inl id →
  (occurs ":" (Arn id) →
     ∃ p, (partition c w).1 = Done (p, None) ∧ Split (Arn id) ":" !! 1%nat = Some p)
  ∧ (∀ a b rest, Arn id = a +:+ ":" +:+ b +:+ rest →
       ¬ occurs ":" a → ¬ occurs ":" b → rest = "" ∨ HasPrefix rest ":" = true →
       (partition c w).1 = Done (b, None))
  ∧ (¬ occurs ":" (Arn id) →
       Split (Arn id) ":" = [Arn id]
       ∧ (partition c w).1 = Panic "runtime error: index out of range [1] with length 1").
Proof.
  intros Hid. unfold partition, identity. rewrite Hid. simpl. split_and!.
  - apply partition_of_in_bounds.
  - intros a b rest -> Ha Hb Hrest. by apply partition_of_second.
  - intros H. split; [by apply Split_no_sep | by apply partition_of_no_colon].
Qed.

Lemma no_colon_in (s : string) : Index s ":" = None → ¬ occurs ":" s.
Proof. apply Index_None. Qed.

Lemma partition_spec_witness :
  sts_reply (world_of alice) zero (sts_calls (world_of alice)) = inl alice
  ∧ (partition zero (world_of alice)).1 = Done ("aws", None).
Proof.
  split; [reflexivity|].
  apply (proj1 (proj2 (partition_spec zero (world_of alice) alice eq_refl))
           "arn" "aws" ":iam::111111111111:user/alice").
  - reflexivity.
  - by apply no_colon_in.
  - by apply no_colon_in.
  - by right.
Defined.

Example partition_no_colon :
  (partition zero (world_of (mkIdentity "111111111111" "nocolon"))).1
  = Panic "runtime error: index out of range [1] with length 1".
Proof. reflexivity. Qed.

(** *** Ranging over the table of environment variables *)

Lemma range_order_Permutation (m : gmap string string) visit :
  range_order m visit → visit ≡ₚ map_to_list m.
Proof. intros [Hnd <-]. symmetry. by apply map_to_list_to_map. Qed.

Lemma range_order_map_to_list (m : gmap string string) : range_order m (map_to_list m).
Proof. split; [apply NoDup_fst_map_to_list | apply list_to_map_to_list]. Qed.

(** [Translations["envvar"]], in the order of the source. *)
Definition envvar_entries : list (string * string) := [
  ("AWS_ACCESS_KEY_ID", "AccessKey");
  ("AWS_SECRET_ACCESS_KEY", "SecretKey");
  ("AWS_SESSION_TOKEN", "SessionToken");
  ("AWS_SECURITY_TOKEN", "SessionToken");
  ("AWS_DEFAULT_REGION", "Region")].

Lemma envvar_range_order : range_order (Translations !!! "envvar") envvar_entries.
Proof. compute_done. Qed.

Lemma range_envvar visit :
  range_order (Translations !!! "envvar") visit → visit ≡ₚ envvar_entries.
Proof.
  intros H%range_order_Permutation. rewrite H. symmetry.
  by apply range_order_Permutation, envvar_range_order.
Qed.

(** *** NewFromEnv *)

(** The values of the variables that [visit] maps to the field [f], in the
    order of [visit]. *)
Definition candidates (environ : gmap string string)
    (visit : list (string * string)) (f : string) : list string :=
  (λ kv, Getenv environ kv.1) <$> filter (λ kv, kv.2 = f) visit.

Fixpoint first_nonempty (l : list string) : string :=
  match l with
  | [] => ""
  | x :: rest => if decide (x = "") then first_nonempty rest else x
  end.

(** The loop of [NewFromEnv] leaves in each field the first value that is
    not empty among those of its variables, in the order they are seen. *)
Lemma NewFromEnv_fold environ visit (acc : gmap string string) f :
  foldl (NewFromEnv_step environ) acc visit !!! f
  = if decide (acc !!! f = "") then first_nonempty (candidates environ visit f)
    else acc !!! f.
Proof.
  revert acc. induction visit as [|[k f'] visit IH]; intros acc.
  { simpl. by case_decide. }
  simpl foldl. rewrite IH. unfold candidates, NewFromEnv_step. cbn [fst snd].
  destruct (decide (f' = f)) as [->|Hf].
  - rewrite filter_cons_True by done. rewrite fmap_cons. cbn [first_nonempty fst].
    destruct (decide (acc !!! f = "")) as [E|E]; [|by rewrite decide_False].
    by rewrite lookup_total_insert_eq.
  - rewrite filter_cons_False by done.
    destruct (decide (acc !!! f' = "")); [|done].
    by rewrite lookup_total_insert_ne.
Qed.

Lemma NewFromEnv_loop_lookup range environ f :
  NewFromEnv_loop range environ !!! f
  = first_nonempty (candidates environ (range (Translations !!! "envvar")) f).
Proof.
  unfold NewFromEnv_loop. rewrite NewFromEnv_fold, lookup_total_empty.
  by rewrite decide_True.
Qed.

Lemma candidates_single environ visit f k :
  filter (λ kv, kv.2 = f) visit ≡ₚ [(k, f)] →
  first_nonempty (candidates environ visit f) = Getenv environ k.
Proof.
  unfold candidates. intros ->%Permutation_singleton_r. simpl. by case_decide.
Qed.

Lemma candidates_pair environ visit f k1 k2 :
  filter (λ kv, kv.2 = f) visit = [(k1, f); (k2, f)] →
  first_nonempty (candidates environ visit f)
  = if decide (Getenv environ k1 = "") then Getenv environ k2 else Getenv environ k1.
Proof.
  unfold candidates. intros ->. simpl.
  destruct (decide (Getenv environ k1 = "")); [|done]. by case_decide.
Qed.

(** [New] reads its argument at four keys, and sees an absent key as an
    empty value. *)
Lemma New_loop_ext keys (m1 m2 : gmap string string) :
  (∀ k, k ∈ keys → m1 !!! k = m2 !!! k) → New_loop keys m1 = New_loop keys m2.
Proof.
  induction keys as [|key keys IH]; intros H; [done|]. simpl.
  pose proof (H key (list_elem_of_here _ _)) as Hk. rewrite !lookup_total_alt in Hk.
  rewrite IH by (intros k ?; apply H; by right).
  destruct (m1 !! key) as [v1|], (m2 !! key) as [v2|]; simpl in Hk; by subst.
Qed.

Lemma New_ext (m1 m2 : gmap string string) :
  (∀ k, k ∈ ["AccessKey"; "SecretKey"; "SessionToken"; "Region"] → m1 !!! k = m2 !!! k) →
  New m1 = New m2.
Proof.
  intros H. unfold New.
  assert (New_loop required m1 = New_loop required m2) as ->.
  { apply New_loop_ext. intros k Hk%list_elem_of_In.
    apply H, list_elem_of_In. simpl in *. tauto. }
  rewrite (H "AccessKey"), (H "SecretKey"), (H "SessionToken"), (H "Region");
    [done|..]; apply list_elem_of_In; simpl; tauto.
Qed.

(** C4, as it is worded, fails: with AWS_SESSION_TOKEN and
    AWS_SECURITY_TOKEN set to the distinct values ST1 and ST2, the loop of
    [NewFromEnv] gives ST1 when it sees the table in the order of the source
    and ST2 when it sees AWS_SECURITY_TOKEN first; both are orders in which
    [range] may visit the table, so no source wins deterministically. *)
Lemma NewFromEnv_order_decides :
  range_order (Translations !!! "envvar") envvar_entries
  ∧ range_order (Translations !!! "envvar") [
      ("AWS_ACCESS_KEY_ID", "AccessKey");
      ("AWS_SECRET_ACCESS_KEY", "SecretKey");
      ("AWS_SECURITY_TOKEN", "SessionToken");
      ("AWS_SESSION_TOKEN", "SessionToken");
      ("AWS_DEFAULT_REGION", "Region")]
  ∧ NewFromEnv (λ _, envvar_entries)
      (list_to_map [("AWS_ACCESS_KEY_ID", "AK"); ("AWS_SECRET_ACCESS_KEY", "SK");
                    ("AWS_SESSION_TOKEN", "ST1"); ("AWS_SECURITY_TOKEN", "ST2")])
    = (mkCreds "AK" "SK" "ST1" "", None)
  ∧ NewFromEnv (λ _, [
      ("AWS_ACCESS_KEY_ID", "AccessKey");
      ("AWS_SECRET_ACCESS_KEY", "SecretKey");
      ("AWS_SECURITY_TOKEN", "SessionToken");
      ("AWS_SESSION_TOKEN", "SessionToken");
      ("AWS_DEFAULT_REGION", "Region")])
      (list_to_map [("AWS_ACCESS_KEY_ID", "AK"); ("AWS_SECRET_ACCESS_KEY", "SK");
                    ("AWS_SESSION_TOKEN", "ST1"); ("AWS_SECURITY_TOKEN", "ST2")])
    = (mkCreds "AK" "SK" "ST2" "", None).
Proof.
  split_and!; [apply envvar_range_order | compute_done | by vm_compute..].
Qed.

(** C4, amended: whatever the order in which [range] visits the table,
    [NewFromEnv] hands to [New] the map whose AccessKey, SecretKey and Region
    are the values of AWS_ACCESS_KEY_ID, AWS_SECRET_ACCESS_KEY and
    AWS_DEFAULT_REGION, and whose SessionToken is the value of that one of
    AWS_SESSION_TOKEN and AWS_SECURITY_TOKEN which the loop sees first, unless
    that value is empty, in which case it is the value of the other one. *)
Theorem NewFromEnv_spec (range : ranger) (environ : gmap string string) :
  range_order (Translations !!! "envvar") (range (Translations !!! "envvar")) →
  ∃ first second,
    (filter (λ kv, kv.2 = "SessionToken") (range (Translations !!! "envvar"))).*1
      = [first; second]
    ∧ ((first = "AWS_SESSION_TOKEN" ∧ second = "AWS_SECURITY_TOKEN")
       ∨ (first = "AWS_SECURITY_TOKEN" ∧ second = "AWS_SESSION_TOKEN"))
    ∧ NewFromEnv range environ
      = New (list_to_map [
          ("AccessKey", Getenv environ "AWS_ACCESS_KEY_ID");
          ("SecretKey", Getenv environ "AWS_SECRET_ACCESS_KEY");
          ("SessionToken", if decide (Getenv environ first = "")
                           then Getenv environ second else Getenv environ first);
          ("Region", Getenv environ "AWS_DEFAULT_REGION")]).
Proof.
  intros Hperm%range_envvar.
  assert (∀ f, filter (λ kv, kv.2 = f) (range (Translations !!! "envvar"))
               ≡ₚ filter (λ kv, kv.2 = f) envvar_entries) as Hf
    by (intros f; by rewrite Hperm).
  assert (∃ first second,
    filter (λ kv, kv.2 = "SessionToken") (range (Translations !!! "envvar"))
      = [(first, "SessionToken"); (second, "SessionToken")]
    ∧ ((first = "AWS_SESSION_TOKEN" ∧ second = "AWS_SECURITY_TOKEN")
       ∨ (first = "AWS_SECURITY_TOKEN" ∧ second = "AWS_SESSION_TOKEN")))
    as (first & second & Hst & Hnames).
  { pose proof (Hf "SessionToken") as H. symmetry in H.
    apply Permutation_length_2_inv in H as [-> | ->]; eexists _, _; eauto. }
  exists first, second. split; [by rewrite Hst|]. split; [done|].
  unfold NewFromEnv. apply New_ext. intros k Hk.
  rewrite NewFromEnv_loop_lookup.
  apply list_elem_of_In in Hk. simpl in Hk.
  destruct Hk as [<- | [<- | [<- | [<- | []]]]].
  - by rewrite (candidates_single _ _ _ "AWS_ACCESS_KEY_ID") by apply Hf.
  - by rewrite (candidates_single _ _ _ "AWS_SECRET_ACCESS_KEY") by apply Hf.
  - by rewrite (candidates_pair _ _ _ first second) by apply Hst.
  - by rewrite (candidates_single _ _ _ "AWS_DEFAULT_REGION") by apply Hf.
Qed.

Lemma NewFromEnv_spec_witness :
  range_order (Translations !!! "envvar") envvar_entries
  ∧ ∃ first second,
      (filter (λ kv, kv.2 = "SessionToken") envvar_entries).*1 = [first; second]
      ∧ ((first = "AWS_SESSION_TOKEN" ∧ second = "AWS_SECURITY_TOKEN")
         ∨ (first = "AWS_SECURITY_TOKEN" ∧ second = "AWS_SESSION_TOKEN"))
      ∧ NewFromEnv (λ _, envvar_entries) (list_to_map [("AWS_SECURITY_TOKEN", "ST2")])
        = New (list_to_map [
            ("AccessKey", Getenv (list_to_map [("AWS_SECURITY_TOKEN", "ST2")]) "AWS_ACCESS_KEY_ID");
            ("SecretKey", Getenv (list_to_map [("AWS_SECURITY_TOKEN", "ST2")]) "AWS_SECRET_ACCESS_KEY");
            ("SessionToken",
             if decide (Getenv (list_to_map [("AWS_SECURITY_TOKEN", "ST2")]) first = "")
             then Getenv (list_to_map [("AWS_SECURITY_TOKEN", "ST2")]) second
             else Getenv (list_to_map [("AWS_SECURITY_TOKEN", "ST2")]) first);
            ("Region", Getenv (list_to_map [("AWS_SECURITY_TOKEN", "ST2")]) "AWS_DEFAULT_REGION")]).
Proof.
  split; [apply envvar_range_order|].
  apply (NewFromEnv_spec (λ _, envvar_entries) (list_to_map [("AWS_SECURITY_TOKEN", "ST2")])).
  apply envvar_range_order.
Defined.

(** *** Translate and ToEnvVars *)

Lemma foldl_insert_lookup (g : string → string) visit (acc : gmap string string) k :
  NoDup visit.*1 →
  foldl (λ new kv, <[kv.1 := g kv.2]> new) acc visit !! k
  = match (list_to_map visit : gmap string string) !! k with
    | Some f => Some (g f)
    | None => acc !! k
    end.
Proof.
  revert acc. induction visit as [|[k0 f0] visit IH]; intros acc Hnd; [done|].
  apply NoDup_cons in Hnd as [Hk0 Hnd]. simpl foldl. rewrite IH by done.
  rewrite list_to_map_cons. destruct (decide (k0 = k)) as [->|Hne].
  - by rewrite (not_elem_of_list_to_map_1 _ _ Hk0), !lookup_insert_eq.
  - rewrite !lookup_insert_ne by done. done.
Qed.

(** [Translate] renames the fields, in whatever order it sees the
    dictionary. *)
Lemma Translate_fmap (range : ranger) (c : Creds) (dictionary : gmap string string) :
  range_order dictionary (range dictionary) →
  Translate range c dictionary = (λ f, toMap c !!! f) <$> dictionary.
Proof.
  intros [Hnd Hmap]. apply map_eq. intros k. unfold Translate.
  rewrite (foldl_insert_lookup (λ f, toMap c !!! f)) by done.
  rewrite Hmap, lookup_fmap, lookup_empty. by destruct (dictionary !! k).
Qed.

Definition export_line (kv : string * string) : string :=
  "export " +:+ kv.1 +:+ "=" +:+ kv.2.

(** One line for every variable with a value that is not empty. *)
Definition lines_of (l : list (string * string)) : list string :=
  export_line <$> filter (λ kv, kv.2 ≠ "") l.

Lemma ToEnvVars_loop_lines l res : ToEnvVars_loop l res = (res ++ lines_of l)%list.
Proof.
  revert res. induction l as [|[k v] l IH]; intros res.
  { by rewrite List.app_nil_r. }
  unfold lines_of. simpl ToEnvVars_loop. destruct (decide (v ≠ "")) as [Hv|Hv].
  - rewrite IH, filter_cons_True, fmap_cons, <-List.app_assoc by done.
    unfold export_line at 2. render. done.
  - by rewrite IH, filter_cons_False.
Qed.

(** The variables in the order of their names, with the values [c] gives
    them. *)
Definition export_entries (c : Creds) : list (string * string) := [
  ("AWS_ACCESS_KEY_ID", AccessKey c);
  ("AWS_DEFAULT_REGION", Region c);
  ("AWS_SECRET_ACCESS_KEY", SecretKey c);
  ("AWS_SECURITY_TOKEN", SessionToken c);
  ("AWS_SESSION_TOKEN", SessionToken c)].

Definition envvar_sorted : list (string * string) := [
  ("AWS_ACCESS_KEY_ID", "AccessKey");
  ("AWS_DEFAULT_REGION", "Region");
  ("AWS_SECRET_ACCESS_KEY", "SecretKey");
  ("AWS_SECURITY_TOKEN", "SessionToken");
  ("AWS_SESSION_TOKEN", "SessionToken")].

Lemma envvar_sorted_range_order : range_order (Translations !!! "envvar") envvar_sorted.
Proof. compute_done. Qed.

Lemma Forall_filter_keep {A} (Q P : A → Prop) `{∀ x, Decision (P x)} (l : list A) :
  Forall Q l → Forall Q (filter P l).
Proof.
  rewrite !Forall_forall. intros HQ x [_ Hx]%list_elem_of_filter. by apply HQ.
Qed.

Lemma StronglySorted_filter {A} (R : relation A) (P : A → Prop)
    `{∀ x, Decision (P x)} (l : list A) :
  StronglySorted R l → StronglySorted R (filter P l).
Proof.
  induction 1 as [|x l Hl IH Hx]; [constructor|].
  destruct (decide (P x)).
  - rewrite filter_cons_True by done. constructor; [done|]. by apply Forall_filter_keep.
  - by rewrite filter_cons_False.
Qed.

(** The lines come in ascending order: the names of the variables differ
    before any of them ends. *)
Lemma export_entries_sorted (c : Creds) : Sorted String.le (lines_of (export_entries c)).
Proof.
  apply StronglySorted_Sorted. unfold lines_of.
  apply (StronglySorted_fmap export_line
           (λ kv1 kv2, String.le (export_line kv1) (export_line kv2))); [done|].
  apply StronglySorted_filter.
  destruct c as [ak sk st rg]. unfold export_entries. simpl.
  repeat (constructor; [|repeat (constructor; [by vm_compute|]); constructor]).
  constructor.
Qed.

Lemma ToEnvVars_Permutation (range : ranger) (c : Creds) :
  (∀ m, range_order m (range m)) →
  ToEnvVars range c ≡ₚ lines_of (export_entries c).
Proof.
  intros Hrange. unfold ToEnvVars, sort_Strings.
  rewrite merge_sort_Permutation, ToEnvVars_loop_lines, List.app_nil_l.
  rewrite Translate_fmap by done.
  unfold lines_of. rewrite (range_order_Permutation _ _ (Hrange _)).
  rewrite map_to_list_fmap.
  rewrite <-(range_order_Permutation _ _ envvar_sorted_range_order).
  by destruct c.
Qed.

(** C5, as it is worded, fails on its example: the table maps both
    AWS_SESSION_TOKEN and AWS_SECURITY_TOKEN to the session token, so the
    credentials AK, SK, ST without region give four lines, not three. *)
Lemma ToEnvVars_example_has_four_lines :
  ToEnvVars map_to_list (mkCreds "AK" "SK" "ST" "")
    = ["export AWS_ACCESS_KEY_ID=AK"; "export AWS_SECRET_ACCESS_KEY=SK";
       "export AWS_SECURITY_TOKEN=ST"; "export AWS_SESSION_TOKEN=ST"]
  ∧ ToEnvVars map_to_list (mkCreds "AK" "SK" "ST" "")
    ≠ ["export AWS_ACCESS_KEY_ID=AK"; "export AWS_SECRET_ACCESS_KEY=SK";
       "export AWS_SESSION_TOKEN=ST"].
Proof. split; by vm_compute. Qed.

(** C5, amended: in whatever order [range] visits the maps, [ToEnvVars]
    returns the lines [export KEY=VALUE] of the variables of
    [Translations["envvar"]] whose field is not empty in [c], one line for
    each, in ascending order; on the credentials AK, SK, ST without region
    these are the four lines of AWS_ACCESS_KEY_ID, AWS_SECRET_ACCESS_KEY,
    AWS_SECURITY_TOKEN and AWS_SESSION_TOKEN, with no line for the region. *)
Theorem ToEnvVars_spec (range : ranger) (c : Creds) :
  (∀ m, range_order m (range m)) →
  ToEnvVars range c = lines_of (export_entries c)
  ∧ Sorted String.le (ToEnvVars range c)
  ∧ (∀ line, line ∈ ToEnvVars range c ↔
       ∃ k f, (Translations !!! "envvar") !! k = Some f
              ∧ toMap c !!! f ≠ ""
              ∧ line = "export " +:+ k +:+ "=" +:+ toMap c !!! f)
  ∧ ToEnvVars range (mkCreds "AK" "SK" "ST" "")
    = ["export AWS_ACCESS_KEY_ID=AK"; "export AWS_SECRET_ACCESS_KEY=SK";
       "export AWS_SECURITY_TOKEN=ST"; "export AWS_SESSION_TOKEN=ST"].
Proof.
  intros Hrange.
  assert (∀ c', ToEnvVars range c' = lines_of (export_entries c')) as Heq.
  { intros c'. apply (Sorted_unique String.le).
    - apply Sorted_merge_sort, _.
    - apply export_entries_sorted.
    - by apply ToEnvVars_Permutation. }
  split_and!.
  - apply Heq.
  - apply Sorted_merge_sort, _.
  - intros line. unfold ToEnvVars, sort_Strings.
    rewrite merge_sort_Permutation, ToEnvVars_loop_lines, List.app_nil_l.
    rewrite Translate_fmap by done.
    unfold lines_of. rewrite list_elem_of_fmap. split.
    + intros ([k v] & -> & [Hv Hkv]%list_elem_of_filter).
      rewrite (range_order_Permutation _ _ (Hrange _)) in Hkv.
      apply elem_of_map_to_list in Hkv. rewrite lookup_fmap in Hkv.
      apply fmap_Some in Hkv as (f & Hf & ->). by exists k, f.
    + intros (k & f & Hf & Hv & ->). exists (k, toMap c !!! f). split; [done|].
      apply list_elem_of_filter. split; [done|].
      rewrite (range_order_Permutation _ _ (Hrange _)).
      apply elem_of_map_to_list. by rewrite lookup_fmap, Hf.
  - by rewrite Heq.
Qed.

Lemma ToEnvVars_spec_witness :
  (∀ m, range_order m (map_to_list m))
  ∧ ToEnvVars map_to_list (mkCreds "AK" "SK" "ST" "eu-west-1")
    = lines_of (export_entries (mkCreds "AK" "SK" "ST" "eu-west-1")).
Proof.
  split; [apply range_order_map_to_list|].
  exact (proj1 (ToEnvVars_spec map_to_list (mkCreds "AK" "SK" "ST" "eu-west-1")
                  range_order_map_to_list)).
Defined.

End CredsSpec.

(** ** The older copy of the credentials, package [utils] *)

Module UtilsSpec.
Import GoFmt StringFacts CredsSpec.

Lemma utils_New_loop_cons key rest (m : gmap string string) :
  (filled m key ∧ utils.New_loop (key :: rest) m = utils.New_loop rest m)
  ∨ (¬ filled m key ∧ ∃ err, utils.New_loop (key :: rest) m = Some err).
Proof.
  unfold filled. simpl. destruct (m !! key) as [v|] eqn:E.
  - destruct (decide (v = "")) as [->|Hv].
    + right. split; [|eauto]. by intros (v & [= <-] & ?).
    + left. eauto.
  - right. split; [|eauto]. by intros (v & [=] & ?).
Qed.

(** X26: [utils.New] checks the same three keys as [creds.New]; it fills
    its receiver when they are there with values that are not empty, and
    returns an error and leaves the receiver when one is not. *)
Lemma utils_New_spec (m : gmap string string) (c : utils.Creds) :
  (filled m "AccessKey" ∧ filled m "SecretKey" ∧ filled m "SessionToken")
  ∧ utils.New m c
    = (None, utils.mkCreds (default "" (m !! "AccessKey")) (default "" (m !! "SecretKey"))
                           (default "" (m !! "SessionToken")))
  ∨ ¬ (filled m "AccessKey" ∧ filled m "SecretKey" ∧ filled m "SessionToken")
    ∧ ∃ err, utils.New m c = (Some err, c).
Proof.
  unfold utils.New, utils.required.
  destruct (utils_New_loop_cons "AccessKey" ["SecretKey"; "SessionToken"] m)
    as [[H1 ->] | [H1 [e ->]]]; [|right; split; [tauto | eauto]].
  destruct (utils_New_loop_cons "SecretKey" ["SessionToken"] m)
    as [[H2 ->] | [H2 [e ->]]]; [|right; split; [tauto | eauto]].
  destruct (utils_New_loop_cons "SessionToken" [] m)
    as [[H3 ->] | [H3 [e ->]]]; [|right; split; [tauto | eauto]].
  left. split; [tauto|]. simpl. by rewrite !lookup_total_alt.
Qed.

(** [utils.ToEnvVars] has no test for empty values: every variable of its
    table gives a line. *)
Example utils_ToEnvVars_keeps_empty :
  utils.ToEnvVars map_to_list (utils.mkCreds "" "SK" "ST")
  = ["export AWS_ACCESS_KEY_ID="; "export AWS_SECRET_ACCESS_KEY=SK";
     "export AWS_SECURITY_TOKEN=ST"; "export AWS_SESSION_TOKEN=ST"].
Proof. by vm_compute. Qed.

End UtilsSpec.

(** ** Lifetime and Mfa *)

Module ExecutorsSpec.
Import GoStrings GoFmt Regexp StringFacts RegexpFacts.
Import creds executors CredsSpec.

(** The serials the words of the specification describe: the account
    segment of the pattern is [\\d{12}]. *)
Definition mfaArnSpecRegex : regex :=
  Cat (Lit "arn:aws")
 (Cat (Quest (Lit "-us-gov"))
 (Cat (Lit ":iam::")
 (Cat (Repeat 12 (Sym is_digit))
 (Cat (Lit ":mfa/")
      (Plus (Sym is_iam_char)))))).

(** [arn:aws] or [arn:aws-us-gov], then [:iam::], an account made of digits,
    [:mfa/] and a device name; [account_ok] says how long the account is. *)
Definition mfa_arn (account_ok : string → Prop) (s : string) : Prop :=
  ∃ gov account name,
    s = "arn:aws" +:+ gov +:+ ":iam::" +:+ account +:+ ":mfa/" +:+ name
    ∧ (gov = "" ∨ gov = "-us-gov")
    ∧ account_ok account ∧ all_bytes is_digit account = true
    ∧ name ≠ "" ∧ all_bytes is_iam_char name = true.

(** A code of six digits. *)
Definition mfa_code (s : string) : Prop :=
  String.length s = 6 ∧ all_bytes is_digit s = true.

Lemma mfaArnRegex_spec s :
  MatchString mfaArnRegex s = true ↔ mfa_arn (λ account, account ≠ "") s.
Proof.
  rewrite MatchString_spec. unfold mfaArnRegex, mfa_arn. split.
  - intros H.
    apply matches_Lit_Cat in H as (t1 & -> & H1).
    apply matches_Cat in H1 as (gov & t2 & -> & Hgov%matches_Quest & H2).
    apply matches_Lit_Cat in H2 as (t3 & -> & H3).
    apply matches_Cat in H3 as (account & t4 & -> & [??]%matches_Plus_Sym & H4).
    apply matches_Lit_Cat in H4 as (name & -> & [??]%matches_Plus_Sym).
    exists gov, account, name. split_and!; try done.
    destruct Hgov as [->%matches_Lit | ->]; auto.
  - intros (gov & account & name & -> & Hgov & ? & ? & ? & ?).
    apply matches_Lit_Cat. eexists. split; [done|].
    apply matches_Cat. eexists _, _. split; [done|]. split.
    { apply matches_Quest. destruct Hgov as [-> | ->]; [by right|].
      left. by apply matches_Lit. }
    apply matches_Lit_Cat. eexists. split; [done|].
    apply matches_Cat. eexists _, _. split; [done|].
    split; [by apply matches_Plus_Sym|].
    apply matches_Lit_Cat. eexists. split; [done|].
    by apply matches_Plus_Sym.
Qed.

Lemma mfaCodeRegex_spec s : MatchString mfaCodeRegex s = true ↔ mfa_code s.
Proof. rewrite MatchString_spec. apply matches_Repeat_Sym. Qed.

(** C1, as the specification words it, fails: the serial
    [arn:aws:iam::1:mfa/a], whose account segment is one digit long, is
    neither empty nor matched by the pattern with [\\d{12}], and
    [SetMfaSerial] accepts and stores it. *)
Lemma SetMfaSerial_short_account :
  SetMfaSerial "arn:aws:iam::1:mfa/a" (mkMfa false "" "" None)
    = (None, mkMfa false "arn:aws:iam::1:mfa/a" "" None)
  ∧ "arn:aws:iam::1:mfa/a" ≠ ""
  ∧ MatchString mfaArnSpecRegex "arn:aws:iam::1:mfa/a" = false.
Proof. split_and!; [reflexivity | discriminate | reflexivity]. Qed.

(** C1, amended: [SetMfaSerial val] succeeds if and only if [val] is empty
    or is [arn:aws] or [arn:aws-us-gov], [:iam::], one digit or more,
    [:mfa/] and one byte or more of [[\\w+=,.@-]]; when it succeeds it stores
    [val] and leaves the other fields, and when it fails it returns the
    malformed-serial error and the receiver as it was. *)
Theorem SetMfaSerial_spec (val : string) (m : Mfa) :
  ((SetMfaSerial val m).1 = None ↔ val = "" ∨ mfa_arn (λ account, account ≠ "") val)
  ∧ ((SetMfaSerial val m).1 = None →
       (SetMfaSerial val m).2 = mkMfa (useMfa m) val (mfaCode m) (mfaPrompt m))
  ∧ ((SetMfaSerial val m).1 ≠ None →
       SetMfaSerial val m = (Some (errorString ("MFA Serial is malformed: " +:+ val)), m)).
Proof.
  unfold SetMfaSerial.
  destruct (bool_decide (val = "") || MatchString mfaArnRegex val) eqn:E; simpl.
  - split_and!; [|done|congruence]. split; [|done]. intros _.
    apply orb_true_iff in E as [E%bool_decide_eq_true | E%mfaArnRegex_spec]; auto.
  - split_and!; [|congruence|intros _; by render]. split; [done|].
    apply orb_false_iff in E as [E1%bool_decide_eq_false E2].
    intros [?|H%mfaArnRegex_spec]; [done | congruence].
Qed.

Lemma SetLifetime_cases (v : Z) (l : Lifetime) :
  ((v = 0%Z ∨ (900 ≤ v ≤ 3600)%Z) ∧ SetLifetime v l = (None, mkLifetime v))
  ∨ ((v ≠ 0%Z ∧ ¬ (900 ≤ v ≤ 3600)%Z)
     ∧ SetLifetime v l
       = (Some (errorString ("lifetime must be between 900 and 3600: " +:+ pretty v)), l)).
Proof.
  unfold SetLifetime.
  destruct (bool_decide (v ≠ 0%Z) && (bool_decide (v < 900)%Z || bool_decide (v > 3600)%Z))
    eqn:E.
  - right. split; [|by render].
    apply andb_true_iff in E as [E1%bool_decide_eq_true E2].
    apply orb_true_iff in E2 as [E2%bool_decide_eq_true | E2%bool_decide_eq_true]; lia.
  - left. split; [|done].
    apply andb_false_iff in E as [E%bool_decide_eq_false | E]; [lia|].
    apply orb_false_iff in E as [E1%bool_decide_eq_false E2%bool_decide_eq_false]. lia.
Qed.

(** C2: [SetLifetime v] succeeds (and stores [v]) if and only if [v = 0] or
    [900 <= v <= 3600], and otherwise returns the out-of-range error and
    leaves the receiver; [GetLifetime] returns 3600 when the stored value is
    0, be it never set or set to 0, and the stored value otherwise.  The
    statement holds for every integer, so for every [int64]. *)
Theorem SetLifetime_GetLifetime_spec (v : Z) (l : Lifetime) :
  ((SetLifetime v l).1 = None ↔ v = 0%Z ∨ (900 ≤ v ≤ 3600)%Z)
  ∧ ((SetLifetime v l).1 = None → (SetLifetime v l).2 = mkLifetime v)
  ∧ ((SetLifetime v l).1 ≠ None →
       SetLifetime v l
       = (Some (errorString ("lifetime must be between 900 and 3600: " +:+ pretty v)), l))
  ∧ (lifetimeInt l = 0%Z → (GetLifetime l).1 = (3600%Z, None))
  ∧ (lifetimeInt l ≠ 0%Z → (GetLifetime l).1 = (lifetimeInt l, None))
  ∧ (GetLifetime (mkLifetime 0)).1 = (3600%Z, None)
  ∧ (GetLifetime (SetLifetime 0 l).2).1 = (3600%Z, None).
Proof.
  split_and!.
  - destruct (SetLifetime_cases v l) as [[H ->] | [[H1 H2] ->]]; simpl; [done|].
    split; [done|]. intros [?|?]; lia.
  - destruct (SetLifetime_cases v l) as [[H ->] | [[H1 H2] ->]]; simpl; congruence.
  - destruct (SetLifetime_cases v l) as [[H ->] | [[H1 H2] ->]]; simpl; congruence.
  - intros H. unfold GetLifetime. by rewrite H.
  - intros H. unfold GetLifetime. by rewrite (bool_decide_eq_false_2 _ H).
  - reflexivity.
  - reflexivity.
Qed.

(** The arguments the setters refuse. *)
Definition bad_lifetime (v : Z) : Prop := v ≠ 0%Z ∧ ¬ (900 ≤ v ≤ 3600)%Z.
Definition bad_serial (val : string) : Prop :=
  val ≠ "" ∧ ¬ mfa_arn (λ account, account ≠ "") val.
Definition bad_code (val : string) : Prop := val ≠ "" ∧ ¬ mfa_code val.

(** C9: a setter that fails leaves the state as it was.  [SetLifetime] with
    a value out of range, [SetMfaSerial] with a malformed serial and
    [SetMfaCode] with a malformed code each return an error and the receiver
    unchanged; and these setters change their receiver only when they return
    no error. *)
Theorem failed_setter_keeps_state :
  (∀ v l, bad_lifetime v → ∃ err, SetLifetime v l = (Some err, l))
  ∧ (∀ val m, bad_serial val → ∃ err, SetMfaSerial val m = (Some err, m))
  ∧ (∀ val m, bad_code val → ∃ err, SetMfaCode val m = (Some err, m))
  ∧ (∀ v l, (SetLifetime v l).1 ≠ None → (SetLifetime v l).2 = l)
  ∧ (∀ val m, (SetMfaSerial val m).1 ≠ None → (SetMfaSerial val m).2 = m)
  ∧ (∀ val m, (SetMfaCode val m).1 ≠ None → (SetMfaCode val m).2 = m).
Proof.
  split_and!.
  - intros v l [H1 H2].
    destruct (SetLifetime_cases v l) as [[H _] | [_ ->]]; [lia | eauto].
  - intros val m [H1 H2]. unfold SetMfaSerial.
    rewrite (bool_decide_eq_false_2 _ H1). simpl.
    destruct (MatchString mfaArnRegex val) eqn:E; [|eauto].
    by apply mfaArnRegex_spec in E.
  - intros val m [H1 H2]. unfold SetMfaCode.
    rewrite (bool_decide_eq_false_2 _ H1). simpl.
    destruct (MatchString mfaCodeRegex val) eqn:E; [|eauto].
    by apply mfaCodeRegex_spec in E.
  - intros v l. unfold SetLifetime. by destruct (_ && _).
  - intros val m. unfold SetMfaSerial. by destruct (_ || _).
  - intros val m. unfold SetMfaCode. by destruct (_ || _).
Qed.

(** [SetMfaCode] takes the empty string and six digits, nothing else. *)
Lemma SetMfaCode_spec (val : string) (m : Mfa) :
  (val = "" ∨ mfa_code val) ∧ SetMfaCode val m = (None, mkMfa (useMfa m) (mfaSerial m) val (mfaPrompt m))
  ∨ bad_code val
    ∧ SetMfaCode val m = (Some (errorString ("MFA Code is malformed: " +:+ val)), m).
Proof.
  unfold SetMfaCode, bad_code.
  destruct (bool_decide (val = "") || MatchString mfaCodeRegex val) eqn:E.
  - left. split; [|done].
    apply orb_true_iff in E as [E%bool_decide_eq_true | E%mfaCodeRegex_spec]; auto.
  - right. apply orb_false_iff in E as [E1%bool_decide_eq_false E2].
    split; [|by render]. split; [done|]. intros H%mfaCodeRegex_spec. congruence.
Qed.

Example SetMfaCode_examples (m : Mfa) :
  (SetMfaCode "123456" m).1 = None
  ∧ (SetMfaCode "" m).1 = None
  ∧ (SetMfaCode "12345" m).1 = Some (errorString "MFA Code is malformed: 12345")
  ∧ (SetMfaCode "1234567" m).1 = Some (errorString "MFA Code is malformed: 1234567")
  ∧ (SetMfaCode "abcdef" m).1 = Some (errorString "MFA Code is malformed: abcdef").
Proof. split_and!; reflexivity. Qed.

(** *** GetMfa *)

Lemma GetMfa_useMfa (m : Mfa) : useMfa m = true → GetMfa m = ((true, None), m).
Proof. intros H. unfold GetMfa. rewrite H. simpl. by rewrite H. Qed.

Lemma GetMfaSerial_useMfa (m : Mfa) (w : World) :
  useMfa (GetMfaSerial m w).1.2 = useMfa m.
Proof.
  unfold GetMfaSerial. case_bool_decide; [|done].
  destruct (MfaArn creds.zero w) as [[v [e|]] w']; done.
Qed.

Lemma GetMfaCode_useMfa (m : Mfa) (w : World) :
  useMfa (GetMfaCode m w).1.2 = useMfa m.
Proof.
  unfold GetMfaCode, GetMfaPrompt. case_bool_decide; [|done].
  destruct (mfaPrompt m) as [p|]; cbv beta iota.
  - destruct (Prompt p w) as [[mfa [e|]] w']; done.
  - destruct (Prompt DefaultMfaPrompt w) as [[mfa [e|]] w']; done.
Qed.

Lemma configureMfa_useMfa (paramsIface : params) (m : Mfa) (w : World) :
  useMfa m = true → useMfa (configureMfa paramsIface m w).1.2 = true.
Proof.
  intros Hm. unfold configureMfa. rewrite (GetMfa_useMfa m Hm). simpl.
  pose proof (GetMfaCode_useMfa m w) as H1.
  destruct (GetMfaCode m w) as [[[code [e1|]] m2] w2]; simpl in *; [congruence|].
  pose proof (GetMfaSerial_useMfa m2 w2) as H2.
  destruct (GetMfaSerial m2 w2) as [[[serial [e2|]] m3] w3]; simpl in *; [congruence|].
  destruct paramsIface; simpl; congruence.
Qed.

(** No call but [SetMfa(false)] switches [useMfa] off. *)
Lemma run_useMfa (st : Mfa * World) (c : call) :
  c ≠ CallSetMfa false → useMfa st.1 = true → useMfa (run st c).1 = true.
Proof.
  intros Hc Hst.
  destruct c as [[|] | val | val | val | | | | | paramsIface];
    unfold run; cbv beta iota; try done.
  - unfold SetMfaSerial. by destruct (_ || _).
  - unfold SetMfaCode. by destruct (_ || _).
  - by rewrite (GetMfa_useMfa _ Hst).
  - pose proof (GetMfaSerial_useMfa st.1 st.2) as H.
    destruct (GetMfaSerial st.1 st.2) as [[r m] w]. simpl in *. congruence.
  - pose proof (GetMfaCode_useMfa st.1 st.2) as H.
    destruct (GetMfaCode st.1 st.2) as [[r m] w]. simpl in *. congruence.
  - unfold GetMfaPrompt. by destruct (mfaPrompt st.1).
  - pose proof (configureMfa_useMfa paramsIface st.1 st.2 Hst) as H.
    destruct (configureMfa paramsIface st.1 st.2) as [[r m] w]. done.
Qed.

Lemma run_all_useMfa (calls : list call) (st : Mfa * World) :
  CallSetMfa false ∉ calls → useMfa st.1 = true → useMfa (run_all st calls).1 = true.
Proof.
  revert st. induction calls as [|c calls IH]; intros st Hnot Hst; [done|].
  apply not_elem_of_cons in Hnot as [Hc Hnot]. simpl.
  apply IH; [done|]. apply run_useMfa; [congruence | done].
Qed.

(** C10, as it is worded, fails: once [GetMfa] has seen the code 123456 and
    set [useMfa], clearing the code and calling [SetMfa(false)] switches MFA
    off again, and [GetMfa] returns false. *)
Lemma SetMfa_false_revokes :
  mfaCode (mkMfa false "" "123456" None) ≠ ""
  ∧ GetMfa (mkMfa false "" "123456" None) = ((true, None), mkMfa true "" "123456" None)
  ∧ (GetMfa (SetMfaCode "" (mkMfa true "" "123456" None)).2).1 = (true, None)
  ∧ (GetMfa (SetMfa false (SetMfaCode "" (mkMfa true "" "123456" None)).2).2).1
    = (false, None).
Proof. split_and!; [discriminate | reflexivity..]. Qed.

(** C10, amended: a call of [GetMfa] while the stored code is not empty
    returns true and sets [useMfa]; [useMfa] then stays true, and [GetMfa]
    keeps returning true, through every later sequence of calls of the
    methods of [Mfa] in which [SetMfa(false)] does not occur; in particular
    [GetMfa] still returns true after [SetMfaCode("")] has cleared the
    code. *)
Theorem GetMfa_latches (m : Mfa) :
  mfaCode m ≠ "" →
  (GetMfa m).1 = (true, None)
  ∧ useMfa (GetMfa m).2 = true
  ∧ (∀ calls w, CallSetMfa false ∉ calls →
       useMfa (run_all ((GetMfa m).2, w) calls).1 = true
       ∧ (GetMfa (run_all ((GetMfa m).2, w) calls).1).1 = (true, None))
  ∧ (SetMfaCode "" (GetMfa m).2).1 = None
  ∧ mfaCode (SetMfaCode "" (GetMfa m).2).2 = ""
  ∧ (GetMfa (SetMfaCode "" (GetMfa m).2).2).1 = (true, None).
Proof.
  intros Hcode.
  assert (useMfa (GetMfa m).2 = true) as Hon.
  { unfold GetMfa. rewrite (bool_decide_eq_true_2 _ Hcode).
    by destruct (useMfa m) eqn:E; simpl. }
  assert ((GetMfa m).1 = (true, None)) as Hret.
  { unfold GetMfa in *. simpl in *. by rewrite Hon. }
  split_and!; try done.
  - intros calls w Hnot.
    pose proof (run_all_useMfa calls ((GetMfa m).2, w) Hnot Hon) as H.
    split; [done|]. by rewrite (GetMfa_useMfa _ H).
  - by rewrite GetMfa_useMfa.
Qed.

Lemma GetMfa_latches_witness :
  mfaCode (mkMfa false "" "123456" None) ≠ ""
  ∧ (GetMfa (SetMfaCode "" (GetMfa (mkMfa false "" "123456" None)).2).2).1 = (true, None).
Proof.
  split; [discriminate|].
  apply (GetMfa_latches (mkMfa false "" "123456" None)). discriminate.
Defined.

(** *** GetMfaSerial *)

(** The world after one round trip to the identity service. *)
Definition after_lookup (w : World) : World :=
  mkWorld (S (sts_calls w)) (sts_reply w) (stdin_reads w) (stdin_reply w).

Lemma MfaArn_of_error (arn v : string) e : MfaArn_of arn = (v, Some e) → v = "".
Proof. unfold MfaArn_of. destruct (negb _); by intros [= <-]. Qed.

Lemma MfaArn_cases (c : Creds) (w : World) :
  (∃ v, v ≠ "" ∧ MfaArn c w = ((v, None), after_lookup w))
  ∨ (∃ e, MfaArn c w = (("", Some e), after_lookup w)).
Proof.
  unfold MfaArn, identity. destruct (sts_reply w c (sts_calls w)) as [id|e]; [|eauto].
  destruct (MfaArn_of (Arn id)) as [v [e|]] eqn:E.
  - right. apply MfaArn_of_error in E as ->. eauto.
  - left. apply MfaArn_of_nonempty in E. eauto.
Qed.

(** What a call of [GetMfaSerial] does: it returns the stored serial, or it
    asks the identity service once and stores what [MfaArn] returned, a serial
    when the lookup succeeded and the empty string when it failed. *)
Lemma GetMfaSerial_cases (m : Mfa) (w : World) :
  (mfaSerial m ≠ "" ∧ GetMfaSerial m w = ((mfaSerial m, None), m, w))
  ∨ (mfaSerial m = ""
     ∧ ∃ v, v ≠ ""
            ∧ GetMfaSerial m w
              = ((v, None), mkMfa (useMfa m) v (mfaCode m) (mfaPrompt m), after_lookup w))
  ∨ (mfaSerial m = ""
     ∧ ∃ e, GetMfaSerial m w
            = (("", Some e), mkMfa (useMfa m) "" (mfaCode m) (mfaPrompt m), after_lookup w)).
Proof.
  unfold GetMfaSerial. case_bool_decide as Hs; [|by left].
  right. destruct (MfaArn_cases creds.zero w) as [(v & Hv & ->) | (e & ->)].
  - left. eauto.
  - right. eauto.
Qed.

(** C7, as it is worded, fails: when the caller is a role, the first call of
    [GetMfaSerial] asks the identity service, fails and stores nothing, and
    the second call asks again; the two calls make two lookups. *)
Lemma GetMfaSerial_twice_two_lookups :
  GetMfaSerial_twice (mkMfa true "" "" None) (world_of role_foo)
  = (("", Some (errorString
        "failed to parse MFA ARN for non-user: arn:aws:iam::111111111111:role/foo")),
     ("", Some (errorString
        "failed to parse MFA ARN for non-user: arn:aws:iam::111111111111:role/foo")),
     2).
Proof. reflexivity. Qed.

(** [GetMfa] and [GetMfaCode] leave the serial. *)
Lemma GetMfa_mfaSerial (m : Mfa) : mfaSerial (GetMfa m).2 = mfaSerial m.
Proof. unfold GetMfa. by destruct (_ && _). Qed.

Lemma GetMfaCode_mfaSerial (m : Mfa) (w : World) :
  mfaSerial (GetMfaCode m w).1.2 = mfaSerial m.
Proof.
  unfold GetMfaCode, GetMfaPrompt. case_bool_decide; [|done].
  destruct (mfaPrompt m) as [p|]; cbv beta iota.
  - destruct (Prompt p w) as [[mfa [e|]] w']; done.
  - destruct (Prompt DefaultMfaPrompt w) as [[mfa [e|]] w']; done.
Qed.

(** A stored serial is returned as it is: no lookup, nothing written. *)
Lemma GetMfaSerial_stored (m : Mfa) (w : World) :
  mfaSerial m ≠ "" → GetMfaSerial m w = ((mfaSerial m, None), m, w).
Proof.
  intros Hs. destruct (GetMfaSerial_cases m w) as [[_ ->] | [[? _] | [? _]]]; done.
Qed.

(** [configureMfa] leaves a stored serial. *)
Lemma configureMfa_mfaSerial (paramsIface : params) (m : Mfa) (w : World) :
  mfaSerial m ≠ "" → mfaSerial (configureMfa paramsIface m w).1.2 = mfaSerial m.
Proof.
  intros Hs. unfold configureMfa.
  pose proof (GetMfa_mfaSerial m) as H0.
  destruct (GetMfa m) as [[u [e|]] m1]; simpl in H0; [done|].
  destruct (negb u); [done|].
  pose proof (GetMfaCode_mfaSerial m1 w) as H1.
  destruct (GetMfaCode m1 w) as [[[code [e1|]] m2] w2]; simpl in *; [congruence|].
  rewrite (GetMfaSerial_stored m2 w2) by congruence.
  destruct paramsIface; simpl; congruence.
Qed.

(** No call but [SetMfaSerial] changes a stored serial. *)
Lemma run_mfaSerial (st : Mfa * World) (c : call) :
  (∀ val, c ≠ CallSetMfaSerial val) → mfaSerial st.1 ≠ "" →
  mfaSerial (run st c).1 = mfaSerial st.1.
Proof.
  intros Hc Hst.
  destruct c as [b | val | val | val | | | | | paramsIface];
    unfold run; cbv beta iota; try done.
  - by destruct (Hc val).
  - unfold SetMfaCode. by destruct (_ || _).
  - apply GetMfa_mfaSerial.
  - by rewrite (GetMfaSerial_stored _ _ Hst).
  - pose proof (GetMfaCode_mfaSerial st.1 st.2) as H.
    by destruct (GetMfaCode st.1 st.2) as [[r m] w].
  - unfold GetMfaPrompt. by destruct (mfaPrompt st.1).
  - pose proof (configureMfa_mfaSerial paramsIface st.1 st.2 Hst) as H.
    by destruct (configureMfa paramsIface st.1 st.2) as [[r m] w].
Qed.

Lemma run_all_mfaSerial (calls : list call) (st : Mfa * World) :
  (∀ val, CallSetMfaSerial val ∉ calls) → mfaSerial st.1 ≠ "" →
  mfaSerial (run_all st calls).1 = mfaSerial st.1.
Proof.
  revert st. induction calls as [|c calls IH]; intros st Hnot Hst; [done|].
  assert (mfaSerial (run st c).1 = mfaSerial st.1) as Hc.
  { apply run_mfaSerial; [|done]. intros val ->. apply (Hnot val). by left. }
  simpl. rewrite IH; [done | | congruence].
  intros val H. apply (Hnot val). by right.
Qed.

(** The calls that write the serial: [SetMfaSerial], which sets it, and
    [GetMfaSerial] and [configureMfa], which resolve it. *)
Definition writes_serial (c : call) : bool :=
  match c with
  | CallSetMfaSerial _ | CallGetMfaSerial | CallConfigureMfa _ => true
  | _ => false
  end.

Lemma run_keeps_serial (st : Mfa * World) (c : call) :
  writes_serial c = false → mfaSerial (run st c).1 = mfaSerial st.1.
Proof.
  destruct c as [b | val | val | val | | | | | paramsIface];
    unfold run; cbv beta iota; try done; intros _.
  - unfold SetMfaCode. by destruct (_ || _).
  - apply GetMfa_mfaSerial.
  - pose proof (GetMfaCode_mfaSerial st.1 st.2) as H.
    by destruct (GetMfaCode st.1 st.2) as [[r m] w].
  - unfold GetMfaPrompt. by destruct (mfaPrompt st.1).
Qed.

Lemma run_all_keeps_serial (calls : list call) (st : Mfa * World) :
  Forall (λ c, writes_serial c = false) calls →
  mfaSerial (run_all st calls).1 = mfaSerial st.1.
Proof.
  revert st. induction calls as [|c calls IH]; intros st Hall; [done|].
  apply Forall_cons in Hall as [Hc Hall]. simpl.
  by rewrite IH, run_keeps_serial.
Qed.

(** C7, amended: when a call of [GetMfaSerial] succeeds, its result is a
    serial that is not empty and is stored, and the call has made at most one
    lookup; the serial then stays stored through every later sequence of calls
    of the methods of [Mfa] in which [SetMfaSerial] does not occur, and a call
    of [GetMfaSerial] after such a sequence, or directly after the first call,
    returns the same value and leaves the receiver and the world as they are:
    it makes no lookup.  When the first call fails, nothing is stored, and a
    call of [GetMfaSerial] that follows it directly, or after calls that do
    not write the serial, makes a lookup of its own. *)
Theorem GetMfaSerial_cached (m : Mfa) (w : World) r1 m1 w1 :
  GetMfaSerial m w = (r1, m1, w1) →
  (r1.2 = None →
     r1.1 ≠ "" ∧ mfaSerial m1 = r1.1
     ∧ GetMfaSerial m1 w1 = (r1, m1, w1)
     ∧ GetMfaSerial_twice m w = (r1, r1, sts_calls w1 - sts_calls w)
     ∧ (sts_calls w1 - sts_calls w ≤ 1)%nat
     ∧ (∀ calls, (∀ val, CallSetMfaSerial val ∉ calls) →
          mfaSerial (run_all (m1, w1) calls).1 = r1.1
          ∧ GetMfaSerial (run_all (m1, w1) calls).1 (run_all (m1, w1) calls).2
            = (r1, (run_all (m1, w1) calls).1, (run_all (m1, w1) calls).2)))
  ∧ (r1.2 ≠ None →
       mfaSerial m1 = ""
       ∧ sts_calls w1 = S (sts_calls w)
       ∧ sts_calls (GetMfaSerial m1 w1).2 = S (S (sts_calls w))
       ∧ (GetMfaSerial_twice m w).2 = 2
       ∧ (∀ calls, Forall (λ c, writes_serial c = false) calls →
            mfaSerial (run_all (m1, w1) calls).1 = ""
            ∧ sts_calls (GetMfaSerial (run_all (m1, w1) calls).1
                                      (run_all (m1, w1) calls).2).2
              = S (sts_calls (run_all (m1, w1) calls).2))).
Proof.
  intros H1.
  assert (r1.2 = None → r1.1 ≠ "" ∧ mfaSerial m1 = r1.1
                         ∧ (sts_calls w1 - sts_calls w ≤ 1)%nat) as Hok.
  { destruct (GetMfaSerial_cases m w)
      as [[Hs E] | [[Hs (v & Hv & E)] | [Hs (e & E)]]];
      rewrite E in H1; injection H1 as <- <- <-; simpl; [| |done].
    - intros _. split_and!; [done..|lia].
    - intros _. split_and!; [done..|lia]. }
  split.
  - intros Hnil. destruct (Hok Hnil) as (Hne & Hst & Hle).
    assert (GetMfaSerial m1 w1 = (r1, m1, w1)) as H2.
    { rewrite GetMfaSerial_stored by congruence.
      rewrite Hst. by destruct r1 as [v [e|]]. }
    split_and!; try done.
    + unfold GetMfaSerial_twice. by rewrite H1, H2.
    + intros calls Hnot.
      assert (mfaSerial (run_all (m1, w1) calls).1 = r1.1) as Hkept.
      { rewrite run_all_mfaSerial; [done | done | simpl; congruence]. }
      split; [done|]. rewrite GetMfaSerial_stored by congruence.
      rewrite Hkept. by destruct r1 as [v [e|]].
  - intros Herr.
    destruct (GetMfaSerial_cases m w)
      as [[Hs E] | [[Hs (v & Hv & E)] | [Hs (e & E)]]];
      rewrite E in H1; injection H1 as <- <- <-; simpl in Herr; [done..|].
    assert (∀ calls, Forall (λ c, writes_serial c = false) calls →
              mfaSerial (run_all (mkMfa (useMfa m) "" (mfaCode m) (mfaPrompt m),
                                  after_lookup w) calls).1 = ""
              ∧ sts_calls (GetMfaSerial
                             (run_all (mkMfa (useMfa m) "" (mfaCode m) (mfaPrompt m),
                                       after_lookup w) calls).1
                             (run_all (mkMfa (useMfa m) "" (mfaCode m) (mfaPrompt m),
                                       after_lookup w) calls).2).2
                = S (sts_calls (run_all (mkMfa (useMfa m) "" (mfaCode m) (mfaPrompt m),
                                         after_lookup w) calls).2)) as Hlater.
    { intros calls Hall.
      pose proof (run_all_keeps_serial calls
                    (mkMfa (useMfa m) "" (mfaCode m) (mfaPrompt m), after_lookup w) Hall)
        as Hkept.
      split; [done|].
      destruct (GetMfaSerial_cases
                  (run_all (mkMfa (useMfa m) "" (mfaCode m) (mfaPrompt m),
                            after_lookup w) calls).1
                  (run_all (mkMfa (useMfa m) "" (mfaCode m) (mfaPrompt m),
                            after_lookup w) calls).2)
        as [[Hs' _] | [[_ (v & _ & ->)] | [_ (e' & ->)]]]; done. }
    unfold GetMfaSerial_twice. rewrite E.
    destruct (GetMfaSerial_cases (mkMfa (useMfa m) "" (mfaCode m) (mfaPrompt m))
                (after_lookup w)) as [[Hs' _] | [[_ (v & _ & ->)] | [_ (e' & ->)]]];
      [done|..]; simpl; split_and!; try done; lia.
Qed.

Lemma GetMfaSerial_cached_witness :
  GetMfaSerial (mkMfa true "" "" None) (world_of alice)
    = (("arn:aws:iam::111111111111:mfa/alice", None),
       mkMfa true "arn:aws:iam::111111111111:mfa/alice" "" None,
       after_lookup (world_of alice))
  ∧ GetMfaSerial_twice (mkMfa true "" "" None) (world_of alice)
    = (("arn:aws:iam::111111111111:mfa/alice", None),
       ("arn:aws:iam::111111111111:mfa/alice", None), 1)
  ∧ mfaSerial
      (run_all (mkMfa true "arn:aws:iam::111111111111:mfa/alice" "" None,
                after_lookup (world_of alice))
               [CallSetMfa false; CallSetMfaCode "123456"; CallGetMfa;
                CallConfigureMfa (AssumeRoleInput None None)]).1
    = "arn:aws:iam::111111111111:mfa/alice".
Proof.
  split; [reflexivity|].
  pose proof (proj1
    (GetMfaSerial_cached (mkMfa true "" "" None) (world_of alice) _ _ _ eq_refl)
    eq_refl) as (_ & _ & _ & Htwice & _ & Hlater).
  split; [exact Htwice|].
  refine (proj1 (Hlater [CallSetMfa false; CallSetMfaCode "123456"; CallGetMfa;
                         CallConfigureMfa (AssumeRoleInput None None)] _)).
  intros val H.
  repeat (apply elem_of_cons in H as [H|H]; [discriminate H|]).
  by apply elem_of_nil in H.
Defined.

End ExecutorsSpec.

(** ** More on the credentials: [New], [Translate], [NewFromEnv] *)

Module CredsProps.
Import GoStrings GoFmt StringFacts.
Import creds CredsSpec.

(** What [New] returns for the values it finds at its four keys. *)
Definition New_of (ak sk st rg : string) : Creds * option error :=
  if decide (ak = "")
  then (zero, Some (errorString "missing required key for Creds: AccessKey"))
  else if decide (sk = "")
  then (zero, Some (errorString "missing required key for Creds: SecretKey"))
  else if decide (st = "")
  then (zero, Some (errorString "missing required key for Creds: SessionToken"))
  else (mkCreds ak sk st rg, None).

Lemma New_New_of (m : gmap string string) :
  New m = New_of (m !!! "AccessKey") (m !!! "SecretKey") (m !!! "SessionToken")
                 (m !!! "Region").
Proof.
  unfold New, New_of, required, New_loop. rewrite !lookup_total_alt.
  destruct (m !! "AccessKey") as [a|]; simpl; [|done].
  destruct (decide (a = "")); [done|].
  destruct (m !! "SecretKey") as [b|]; simpl; [|done].
  destruct (decide (b = "")); [done|].
  destruct (m !! "SessionToken") as [t|]; simpl; [|done].
  by destruct (decide (t = "")).
Qed.

Lemma New_toMap (c : Creds) :
  New (toMap c) = New_of (AccessKey c) (SecretKey c) (SessionToken c) (Region c).
Proof. rewrite New_New_of. by destruct c. Qed.

(** X1: credentials whose access key, secret key and session token are not
    empty come back unchanged from [New] applied to their own [toMap], and
    only such credentials do; for the others [New] returns the empty
    credentials next to its error. *)
Theorem New_toMap_roundtrip (c : Creds) :
  (New (toMap c) = (c, None) ↔
     AccessKey c ≠ "" ∧ SecretKey c ≠ "" ∧ SessionToken c ≠ "")
  ∧ ((New (toMap c)).2 ≠ None → (New (toMap c)).1 = zero)
  ∧ (AccessKey c = "" ∨ SecretKey c = "" ∨ SessionToken c = "" →
       (New (toMap c)).1 = zero ∧ (New (toMap c)).2 ≠ None).
Proof.
  rewrite New_toMap. unfold New_of. destruct c as [ak sk st rg]. simpl.
  destruct (decide (ak = "")); [split_and!; [split; [done | tauto] | done | done]|].
  destruct (decide (sk = "")); [split_and!; [split; [done | tauto] | done | done]|].
  destruct (decide (st = "")); [split_and!; [split; [done | tauto] | done | done]|].
  split_and!; [tauto | done | tauto].
Qed.

(** X2: the credentials [New] returns without an error have an access key, a
    secret key and a session token that are not empty, and [ToEnvVars] prints
    four lines for them, or five when they have a region: the line of the
    region is the only one that can be missing. *)
Theorem New_then_ToEnvVars (range : ranger) (m : gmap string string) (c : Creds) :
  (∀ m', range_order m' (range m')) →
  New m = (c, None) →
  AccessKey c ≠ "" ∧ SecretKey c ≠ "" ∧ SessionToken c ≠ ""
  ∧ ToEnvVars range c
    = (["export AWS_ACCESS_KEY_ID=" +:+ AccessKey c]
       ++ (if decide (Region c = "") then []
           else ["export AWS_DEFAULT_REGION=" +:+ Region c])
       ++ ["export AWS_SECRET_ACCESS_KEY=" +:+ SecretKey c;
           "export AWS_SECURITY_TOKEN=" +:+ SessionToken c;
           "export AWS_SESSION_TOKEN=" +:+ SessionToken c])%list.
Proof.
  intros Hrange HNew. rewrite New_New_of in HNew. unfold New_of in HNew.
  destruct (decide (m !!! "AccessKey" = "")); [done|].
  destruct (decide (m !!! "SecretKey" = "")); [done|].
  destruct (decide (m !!! "SessionToken" = "")); [done|].
  injection HNew as <-. simpl.
  split_and!; try done.
  assert (ToEnvVars range
            (mkCreds (m !!! "AccessKey") (m !!! "SecretKey") (m !!! "SessionToken")
                     (m !!! "Region"))
          = lines_of (export_entries
              (mkCreds (m !!! "AccessKey") (m !!! "SecretKey") (m !!! "SessionToken")
                       (m !!! "Region")))) as ->.
  { apply (Sorted_unique String.le).
    - apply Sorted_merge_sort, _.
    - apply export_entries_sorted.
    - by apply ToEnvVars_Permutation. }
  unfold lines_of, export_entries. simpl.
  rewrite !filter_cons, filter_nil. simpl.
  repeat case_decide; try done.
Qed.

Lemma New_then_ToEnvVars_witness :
  (∀ m', range_order m' (map_to_list m'))
  ∧ New (list_to_map [("AccessKey", "AK"); ("SecretKey", "SK"); ("SessionToken", "ST")])
    = (mkCreds "AK" "SK" "ST" "", None)
  ∧ ToEnvVars map_to_list (mkCreds "AK" "SK" "ST" "")
    = ["export AWS_ACCESS_KEY_ID=AK"; "export AWS_SECRET_ACCESS_KEY=SK";
       "export AWS_SECURITY_TOKEN=ST"; "export AWS_SESSION_TOKEN=ST"].
Proof.
  split; [apply range_order_map_to_list|]. split; [reflexivity|].
  exact (proj2 (proj2 (proj2 (New_then_ToEnvVars map_to_list
    (list_to_map [("AccessKey", "AK"); ("SecretKey", "SK"); ("SessionToken", "ST")])
    (mkCreds "AK" "SK" "ST" "") range_order_map_to_list eq_refl)))).
Defined.

(** *** Translate *)

(** X3: in whatever order [range] visits the dictionary, [Translate] gives a
    map with the keys of the dictionary, each with the value of the field
    the dictionary names for it, and the empty string for a name that is no
    field; with the dictionary that maps every field to itself it gives
    [toMap] back, and with [Translations["console"]] the three console
    keys. *)
Theorem Translate_spec (range : ranger) (c : Creds) :
  (∀ m, range_order m (range m)) →
  (∀ dictionary k,
     Translate range c dictionary !! k = (λ f, toMap c !!! f) <$> dictionary !! k)
  ∧ (∀ dictionary, dom (Translate range c dictionary) = dom dictionary)
  ∧ (∀ f, f ∉ ["AccessKey"; "SecretKey"; "SessionToken"; "Region"] → toMap c !!! f = "")
  ∧ Translate range c
      (list_to_map [("AccessKey", "AccessKey"); ("SecretKey", "SecretKey");
                    ("SessionToken", "SessionToken"); ("Region", "Region")])
    = toMap c
  ∧ Translate range c (Translations !!! "console")
    = list_to_map [("sessionId", AccessKey c); ("sessionKey", SecretKey c);
                   ("sessionToken", SessionToken c)].
Proof.
  intros Hrange. split_and!.
  - intros dictionary k. by rewrite Translate_fmap, lookup_fmap.
  - intros dictionary. by rewrite Translate_fmap, dom_fmap_L.
  - intros f Hf. unfold toMap. rewrite lookup_total_alt.
    cbn [list_to_map foldr]. rewrite !lookup_insert_ne, lookup_empty; [done|..];
      intros <-; apply Hf; apply list_elem_of_In; simpl; tauto.
  - rewrite Translate_fmap by done. by destruct c.
  - rewrite Translate_fmap by done. by destruct c.
Qed.

Lemma Translate_spec_witness :
  (∀ m, range_order m (map_to_list m))
  ∧ Translate map_to_list (mkCreds "AK" "SK" "ST" "eu-west-1") (Translations !!! "console")
    = list_to_map [("sessionId", "AK"); ("sessionKey", "SK"); ("sessionToken", "ST")].
Proof.
  split; [apply range_order_map_to_list|].
  exact (proj2 (proj2 (proj2 (proj2
    (Translate_spec map_to_list (mkCreds "AK" "SK" "ST" "eu-west-1")
       range_order_map_to_list))))).
Defined.

(** *** NewFromEnv, again *)

(** [NewFromEnv] in terms of what the variables hold: [first] and [second]
    are the two variables of the session token in the order in which the
    loop sees them. *)
Lemma NewFromEnv_New_of (range : ranger) (environ : gmap string string) :
  range_order (Translations !!! "envvar") (range (Translations !!! "envvar")) →
  ∃ first second,
    ((first = "AWS_SESSION_TOKEN" ∧ second = "AWS_SECURITY_TOKEN")
     ∨ (first = "AWS_SECURITY_TOKEN" ∧ second = "AWS_SESSION_TOKEN"))
    ∧ NewFromEnv range environ
      = New_of (Getenv environ "AWS_ACCESS_KEY_ID")
               (Getenv environ "AWS_SECRET_ACCESS_KEY")
               (if decide (Getenv environ first = "")
                then Getenv environ second else Getenv environ first)
               (Getenv environ "AWS_DEFAULT_REGION").
Proof.
  intros Hperm%range_envvar.
  assert (∀ f, filter (λ kv, kv.2 = f) (range (Translations !!! "envvar"))
               ≡ₚ filter (λ kv, kv.2 = f) envvar_entries) as Hf
    by (intros f; by rewrite Hperm).
  assert (∃ first second,
    filter (λ kv, kv.2 = "SessionToken") (range (Translations !!! "envvar"))
      = [(first, "SessionToken"); (second, "SessionToken")]
    ∧ ((first = "AWS_SESSION_TOKEN" ∧ second = "AWS_SECURITY_TOKEN")
       ∨ (first = "AWS_SECURITY_TOKEN" ∧ second = "AWS_SESSION_TOKEN")))
    as (first & second & Hst & Hnames).
  { pose proof (Hf "SessionToken") as H. symmetry in H.
    apply Permutation_length_2_inv in H as [-> | ->]; eexists _, _; eauto. }
  exists first, second. split; [done|].
  unfold NewFromEnv. rewrite New_New_of, !NewFromEnv_loop_lookup.
  rewrite (candidates_single _ _ "AccessKey" "AWS_ACCESS_KEY_ID") by apply Hf.
  rewrite (candidates_single _ _ "SecretKey" "AWS_SECRET_ACCESS_KEY") by apply Hf.
  rewrite (candidates_single _ _ "Region" "AWS_DEFAULT_REGION") by apply Hf.
  by rewrite (candidates_pair _ _ "SessionToken" first second) by apply Hst.
Qed.

(** X4: whether [NewFromEnv] succeeds does not depend on the order in which
    the table is visited: it succeeds if and only if AWS_ACCESS_KEY_ID and
    AWS_SECRET_ACCESS_KEY are set to values that are not empty and so is at
    least one of AWS_SESSION_TOKEN and AWS_SECURITY_TOKEN; its error names
    AccessKey, SecretKey or SessionToken, the first of them that no variable
    fills. *)
Theorem NewFromEnv_success (range : ranger) (environ : gmap string string) :
  range_order (Translations !!! "envvar") (range (Translations !!! "envvar")) →
  ((NewFromEnv range environ).2 = None ↔
     Getenv environ "AWS_ACCESS_KEY_ID" ≠ ""
     ∧ Getenv environ "AWS_SECRET_ACCESS_KEY" ≠ ""
     ∧ (Getenv environ "AWS_SESSION_TOKEN" ≠ "" ∨ Getenv environ "AWS_SECURITY_TOKEN" ≠ ""))
  ∧ (Getenv environ "AWS_ACCESS_KEY_ID" = "" →
       NewFromEnv range environ
       = (zero, Some (errorString "missing required key for Creds: AccessKey")))
  ∧ (Getenv environ "AWS_ACCESS_KEY_ID" ≠ "" → Getenv environ "AWS_SECRET_ACCESS_KEY" = "" →
       NewFromEnv range environ
       = (zero, Some (errorString "missing required key for Creds: SecretKey")))
  ∧ (Getenv environ "AWS_ACCESS_KEY_ID" ≠ "" → Getenv environ "AWS_SECRET_ACCESS_KEY" ≠ "" →
     Getenv environ "AWS_SESSION_TOKEN" = "" → Getenv environ "AWS_SECURITY_TOKEN" = "" →
       NewFromEnv range environ
       = (zero, Some (errorString "missing required key for Creds: SessionToken"))).
Proof.
  intros Hrange.
  destruct (NewFromEnv_New_of range environ Hrange) as (first & second & Hnames & ->).
  unfold New_of.
  destruct (decide (Getenv environ "AWS_ACCESS_KEY_ID" = "")) as [Ha|Ha];
    [split_and!; [split; [done | tauto] | done | tauto | tauto]|].
  destruct (decide (Getenv environ "AWS_SECRET_ACCESS_KEY" = "")) as [Hs|Hs];
    [split_and!; [split; [done | tauto] | tauto | done | tauto]|].
  destruct Hnames as [[-> ->] | [-> ->]];
    destruct (decide (Getenv environ "AWS_SESSION_TOKEN" = "")) as [H1|H1];
    destruct (decide (Getenv environ "AWS_SECURITY_TOKEN" = "")) as [H2|H2];
    rewrite ?H1, ?H2; simpl;
    repeat (case_decide; try done);
    (split_and!; [split; [try done; tauto | try done; tauto] | tauto..]).
Qed.

Lemma NewFromEnv_success_witness :
  range_order (Translations !!! "envvar") envvar_entries
  ∧ NewFromEnv (λ _, envvar_entries) (list_to_map [("AWS_SECRET_ACCESS_KEY", "SK")])
    = (zero, Some (errorString "missing required key for Creds: AccessKey")).
Proof.
  split; [apply envvar_range_order|].
  exact (proj1 (proj2 (NewFromEnv_success (λ _, envvar_entries)
    (list_to_map [("AWS_SECRET_ACCESS_KEY", "SK")]) envvar_range_order)) eq_refl).
Defined.

(** X5: when AWS_SESSION_TOKEN and AWS_SECURITY_TOKEN hold the same value,
    or one of them is empty, the whole result of [NewFromEnv] is the same for
    every order in which the table can be visited. *)
Theorem NewFromEnv_order_free (range1 range2 : ranger) (environ : gmap string string) :
  range_order (Translations !!! "envvar") (range1 (Translations !!! "envvar")) →
  range_order (Translations !!! "envvar") (range2 (Translations !!! "envvar")) →
  Getenv environ "AWS_SESSION_TOKEN" = ""
  ∨ Getenv environ "AWS_SECURITY_TOKEN" = ""
  ∨ Getenv environ "AWS_SESSION_TOKEN" = Getenv environ "AWS_SECURITY_TOKEN" →
  NewFromEnv range1 environ = NewFromEnv range2 environ.
Proof.
  intros H1 H2 Htok.
  destruct (NewFromEnv_New_of range1 environ H1) as (f1 & s1 & Hn1 & ->).
  destruct (NewFromEnv_New_of range2 environ H2) as (f2 & s2 & Hn2 & ->).
  f_equal.
  destruct Hn1 as [[-> ->] | [-> ->]], Hn2 as [[-> ->] | [-> ->]]; try done;
    destruct (decide (Getenv environ "AWS_SESSION_TOKEN" = "")) as [E1|E1];
    destruct (decide (Getenv environ "AWS_SECURITY_TOKEN" = "")) as [E2|E2];
    try done; try congruence; destruct Htok as [?|[?|?]]; congruence.
Qed.

Lemma NewFromEnv_order_free_witness :
  range_order (Translations !!! "envvar") envvar_entries
  ∧ range_order (Translations !!! "envvar") envvar_sorted
  ∧ NewFromEnv (λ _, envvar_entries) (list_to_map [("AWS_SECURITY_TOKEN", "ST")])
    = NewFromEnv (λ _, envvar_sorted) (list_to_map [("AWS_SECURITY_TOKEN", "ST")]).
Proof.
  split; [apply envvar_range_order|]. split; [apply envvar_sorted_range_order|].
  apply (NewFromEnv_order_free (λ _, envvar_entries) (λ _, envvar_sorted)
           (list_to_map [("AWS_SECURITY_TOKEN", "ST")])
           envvar_range_order envvar_sorted_range_order).
  by left.
Defined.

(** X6: the variables [Translate] derives from credentials that [New] would
    take are read back by [NewFromEnv] as the same credentials, in whatever
    orders the two loops visit the table. *)
Theorem NewFromEnv_Translate_roundtrip (range range' : ranger) (c : Creds) :
  (∀ m, range_order m (range m)) → (∀ m, range_order m (range' m)) →
  AccessKey c ≠ "" → SecretKey c ≠ "" → SessionToken c ≠ "" →
  NewFromEnv range (Translate range' c (Translations !!! "envvar")) = (c, None).
Proof.
  intros Hrange Hrange' Ha Hs Ht.
  destruct (NewFromEnv_New_of range (Translate range' c (Translations !!! "envvar"))
              (Hrange _)) as (first & second & Hnames & ->).
  rewrite Translate_fmap by done. destruct c as [ak sk st rg]. simpl in *.
  assert (∀ k f, (Translations !!! "envvar") !! k = Some f →
     Getenv ((λ f, toMap (mkCreds ak sk st rg) !!! f) <$> Translations !!! "envvar") k
     = toMap (mkCreds ak sk st rg) !!! f) as Hget.
  { intros k f Hk. unfold Getenv. by rewrite lookup_total_alt, lookup_fmap, Hk. }
  rewrite (Hget "AWS_ACCESS_KEY_ID" "AccessKey") by done.
  rewrite (Hget "AWS_SECRET_ACCESS_KEY" "SecretKey") by done.
  rewrite (Hget "AWS_DEFAULT_REGION" "Region") by done.
  assert (Getenv ((λ f, toMap (mkCreds ak sk st rg) !!! f) <$> Translations !!! "envvar") first
          = st) as ->.
  { destruct Hnames as [[-> _] | [-> _]]; by rewrite (Hget _ "SessionToken"). }
  change (toMap (mkCreds ak sk st rg) !!! "AccessKey") with ak.
  change (toMap (mkCreds ak sk st rg) !!! "SecretKey") with sk.
  change (toMap (mkCreds ak sk st rg) !!! "Region") with rg.
  unfold New_of.
  destruct (decide (st = "")); [done|]. cbv iota beta.
  destruct (decide (ak = "")); [done|]. destruct (decide (sk = "")); [done|].
  by destruct (decide (st = "")).
Qed.

Lemma NewFromEnv_Translate_roundtrip_witness :
  (∀ m, range_order m (map_to_list m))
  ∧ "AK" ≠ "" ∧ "SK" ≠ "" ∧ "ST" ≠ ""
  ∧ NewFromEnv map_to_list
      (Translate map_to_list (mkCreds "AK" "SK" "ST" "") (Translations !!! "envvar"))
    = (mkCreds "AK" "SK" "ST" "", None).
Proof.
  split; [apply range_order_map_to_list|]. split_and!; try discriminate.
  apply (NewFromEnv_Translate_roundtrip map_to_list map_to_list (mkCreds "AK" "SK" "ST" ""));
    first [apply range_order_map_to_list | discriminate].
Defined.

(** *** What is derived from the caller's identity *)

(** [p] is the piece of [arn] between its first colon and the next one, or
    the end. *)
Definition partition_is (p arn : string) : Prop :=
  ∃ a rest, arn = a +:+ ":" +:+ p +:+ rest
            ∧ ¬ occurs ":" a ∧ ¬ occurs ":" p
            ∧ (rest = "" ∨ HasPrefix rest ":" = true).

Lemma partition_of_is (p arn : string) :
  partition_is p arn → partition_of arn = Done (p, None).
Proof. intros (a & rest & -> & Ha & Hp & Hrest). by apply partition_of_second. Qed.

Lemma partition_is_intro (a p rest : string) :
  Index a ":" = None → Index p ":" = None → rest = "" ∨ HasPrefix rest ":" = true →
  partition_is p (a +:+ ":" +:+ p +:+ rest).
Proof. intros Ha%Index_None Hp%Index_None Hrest. by exists a, rest. Qed.

Lemma namespaces_lookup (p : string) :
  namespaces !! p
  = if decide (p = "aws") then Some "aws.amazon"
    else if decide (p = "aws-us-gov") then Some "amazonaws-us-gov" else None.
Proof.
  unfold namespaces. cbn [list_to_map foldr].
  destruct (decide (p = "aws")) as [->|H1]; [done|].
  destruct (decide (p = "aws-us-gov")) as [->|H2]; [done|].
  by rewrite !lookup_insert_ne, lookup_empty.
Qed.

Lemma namespace_of_partition (c : Creds) (w : World) (id : GetCallerIdentityOutput) p :
  sts_reply w c (sts_calls w) = inl id → partition_is p (Arn id) →
  (namespace c w).1
  = match namespaces !! p with
    | Some result => Done (result, None)
    | None => Done ("", Some (errorString ("unknown partition: " +:+ p)))
    end.
Proof.
  intros Hid Hp. unfold namespace, partition, identity. rewrite Hid, (partition_of_is _ _ Hp).
  destruct (namespaces !! p); [done|]. by render.
Qed.

(** X7: [namespace] maps the partition of the caller's ARN through a table
    of two entries: aws gives aws.amazon, aws-us-gov gives amazonaws-us-gov,
    and every other partition gives the unknown-partition error that names
    it. *)
Theorem namespace_spec (c : Creds) (w : World) (id : GetCallerIdentityOutput) (p : string) :
  sts_reply w c (sts_calls w) = inl id → partition_is p (Arn id) →
  (p = "aws" → (namespace c w).1 = Done ("aws.amazon", None))
  ∧ (p = "aws-us-gov" → (namespace c w).1 = Done ("amazonaws-us-gov", None))
  ∧ (p ≠ "aws" → p ≠ "aws-us-gov" →
       (namespace c w).1 = Done ("", Some (errorString ("unknown partition: " +:+ p)))).
Proof.
  intros Hid Hp. rewrite (namespace_of_partition c w id p Hid Hp), namespaces_lookup.
  split_and!.
  - by intros ->.
  - by intros ->.
  - intros H1 H2. by rewrite !decide_False.
Qed.

Lemma namespace_spec_witness :
  sts_reply (world_of alice) zero (sts_calls (world_of alice)) = inl alice
  ∧ partition_is "aws" (Arn alice)
  ∧ (namespace zero (world_of alice)).1 = Done ("aws.amazon", None).
Proof.
  assert (partition_is "aws" (Arn alice)) as Hp
    by (by apply (partition_is_intro "arn" "aws" ":iam::111111111111:user/alice"); [| |right]).
  split; [reflexivity|]. split; [exact Hp|].
  exact (proj1 (namespace_spec zero (world_of alice) alice "aws" eq_refl Hp) eq_refl).
Defined.

(** X8: [ToSignoutURL] is https://signin.aws.amazon.com/oauth?Action=logout
    for a caller of the partition aws and
    https://signin.amazonaws-us-gov.com/oauth?Action=logout for one of
    aws-us-gov; for every other partition it returns the unknown-partition
    error and no URL. *)
Theorem ToSignoutURL_spec (c : Creds) (w : World) (id : GetCallerIdentityOutput) (p : string) :
  sts_reply w c (sts_calls w) = inl id → partition_is p (Arn id) →
  (p = "aws" →
     (ToSignoutURL c w).1 = Done ("https://signin.aws.amazon.com/oauth?Action=logout", None))
  ∧ (p = "aws-us-gov" →
       (ToSignoutURL c w).1
       = Done ("https://signin.amazonaws-us-gov.com/oauth?Action=logout", None))
  ∧ (p ≠ "aws" → p ≠ "aws-us-gov" →
       (ToSignoutURL c w).1 = Done ("", Some (errorString ("unknown partition: " +:+ p)))).
Proof.
  intros Hid Hp. pose proof (namespace_of_partition c w id p Hid Hp) as Hns.
  rewrite namespaces_lookup in Hns. unfold ToSignoutURL.
  destruct (namespace c w) as [r w']. simpl in Hns. subst r. split_and!.
  - by intros ->.
  - by intros ->.
  - intros H1 H2. by rewrite !decide_False.
Qed.

Lemma ToSignoutURL_spec_witness :
  sts_reply (world_of alice) zero (sts_calls (world_of alice)) = inl alice
  ∧ partition_is "aws" (Arn alice)
  ∧ (ToSignoutURL zero (world_of alice)).1
    = Done ("https://signin.aws.amazon.com/oauth?Action=logout", None).
Proof.
  assert (partition_is "aws" (Arn alice)) as Hp
    by (by apply (partition_is_intro "arn" "aws" ":iam::111111111111:user/alice"); [| |right]).
  split; [reflexivity|]. split; [exact Hp|].
  exact (proj1 (ToSignoutURL_spec zero (world_of alice) alice "aws" eq_refl Hp) eq_refl).
Defined.

(** The last piece [Split] gives holds no separator and ends the string. *)
Lemma genSplit_last f (s sep : string) :
  sep ≠ "" → (String.length s ≤ f)%nat →
  ∃ x, last (genSplit f s sep) = Some x
       ∧ ¬ occurs sep x
       ∧ (s = x ∨ ∃ pre, s = pre +:+ sep +:+ x).
Proof.
  intros Hsep. revert s. induction f as [|f IH]; intros s Hlen.
  - assert (s = "") as -> by (apply length_zero; lia).
    exists "". split; [done|]. split; [|by left].
    apply Index_None. by apply Index_nil.
  - rewrite genSplit_S. destruct (Index s sep) as [m|] eqn:E.
    + pose proof (Index_Some _ _ _ E) as [Hs _].
      assert (String.length sep ≠ 0) by (destruct sep; simpl; congruence).
      destruct (IH (str_drop (m + String.length sep) s)) as (x & Hlast & Hx & Hend).
      { rewrite str_drop_length. lia. }
      exists x. split_and!; [|done|].
      * destruct (genSplit_nonempty f (str_drop (m + String.length sep) s) sep)
          as (y & l & Hyl). rewrite Hyl in Hlast |- *. by rewrite last_cons, Hlast.
      * right. destruct Hend as [Hend | (pre & Hend)].
        -- exists (str_take m s). by rewrite <-Hend.
        -- exists (str_take m s +:+ sep +:+ pre). rewrite !app_assoc, <-Hend. done.
    + exists s. split; [done|]. split; [by apply Index_None | by left].
Qed.

(** Two ways of cutting one string in two: one cut lies before the other. *)
Lemma app_eq_app (a b c d : string) :
  a +:+ b = c +:+ d →
  (∃ z, c = a +:+ z ∧ b = z +:+ d) ∨ (∃ z, a = c +:+ z ∧ d = z +:+ b).
Proof.
  revert c. induction a as [|x a IH]; intros c H.
  - left. exists c. by rewrite app_nil_l in H.
  - destruct c as [|y c].
    + right. exists (String x a). by rewrite app_nil_l in H.
    + rewrite !app_cons in H. injection H as -> H.
      destruct (IH c H) as [(z & -> & ->) | (z & -> & ->)]; [left | right]; by exists z.
Qed.

(** What follows the last slash of a string is determined by the string. *)
Lemma after_last_slash_unique (pre pre' x y : string) :
  pre +:+ "/" +:+ x = pre' +:+ "/" +:+ y → ¬ occurs "/" x → ¬ occurs "/" y → x = y.
Proof.
  intros H Hx Hy.
  destruct (app_eq_app _ _ _ _ H) as [(z & -> & Hz) | (z & -> & Hz)];
    destruct z as [|a z]; rewrite ?app_nil_l, !app_cons, ?app_nil_l in Hz;
    injection Hz as Hz; try done; subst.
  - destruct Hx. by exists z, y.
  - destruct Hy. by exists z, x.
Qed.

(** X9: when the identity service answers and its answer carries the ARN
    [arn], [SessionName] returns what follows the last slash of [arn], and
    the whole of [arn] when it holds no slash. *)
Theorem SessionName_spec (c : Creds) (w : World) (id : GetCallerIdentityOutput)
    (arn : string) :
  sts_reply w c (sts_calls w) = inl id → Arn id = arn →
  (∀ pre name, arn = pre +:+ "/" +:+ name → ¬ occurs "/" name →
     (SessionName c w).1 = Done (name, None))
  ∧ (¬ occurs "/" arn → (SessionName c w).1 = Done (arn, None)).
Proof.
  intros Hid <-. unfold SessionName, identity. rewrite Hid. simpl.
  destruct (genSplit_last (String.length (Arn id)) (Arn id) "/") as (x & Hlast & Hx & Hend);
    [done | done |].
  assert (SessionName_of (Arn id) = Done (x, None)) as ->.
  { unfold SessionName_of, Split. rewrite last_lookup in Hlast.
    replace (length (genSplit (String.length (Arn id)) (Arn id) "/") - 1)%nat
      with (pred (length (genSplit (String.length (Arn id)) (Arn id) "/"))) by lia.
    by rewrite Hlast. }
  split.
  - intros pre name Harn Hname. destruct Hend as [Hend | (pre' & Hend)].
    + destruct Hx. rewrite <-Hend, Harn. by exists pre, name.
    + rewrite Harn in Hend.
      by rewrite (after_last_slash_unique _ _ _ _ Hend Hname Hx).
  - intros Hno. destruct Hend as [<- | (pre' & Hend)]; [done|].
    destruct Hno. rewrite Hend. by exists pre', x.
Qed.

Lemma SessionName_spec_witness :
  sts_reply (world_of alice) zero (sts_calls (world_of alice)) = inl alice
  ∧ (SessionName zero (world_of alice)).1 = Done ("alice", None).
Proof.
  split; [reflexivity|].
  apply (proj1 (SessionName_spec zero (world_of alice) alice
                  "arn:aws:iam::111111111111:user/alice" eq_refl eq_refl)
           "arn:aws:iam::111111111111:user" "alice"); [reflexivity|].
  by apply Index_None.
Defined.

(** X10: [NextRoleArn] refuses an empty role whatever the identity service
    would answer, and asks nothing; for any other role it asks the identity
    service twice, and when both answers come and the ARN of the second one
    has the partition PARTITION it returns
    arn:PARTITION:iam::ACCOUNT:role/ROLE, where the account is the one given;
    only when the account given is empty is the account of the first answer
    read, and when that answer carries the account [account], it is the one
    used. *)
Theorem NextRoleArn_spec (c : Creds) (role inputAccountID : string) (w : World) :
  NextRoleArn c "" inputAccountID w
    = (Done ("", Some (errorString "role name cannot be empty")), w)
  ∧ (∀ id1 id2 p,
       role ≠ "" →
       sts_reply w c (sts_calls w) = inl id1 →
       sts_reply w c (S (sts_calls w)) = inl id2 →
       partition_is p (Arn id2) →
       sts_calls (NextRoleArn c role inputAccountID w).2 = S (S (sts_calls w))
       ∧ (inputAccountID ≠ "" →
            (NextRoleArn c role inputAccountID w).1
            = Done ("arn:" +:+ p +:+ ":iam::" +:+ inputAccountID +:+ ":role/" +:+ role,
                    None))
       ∧ (∀ account, inputAccountID = "" → Account id1 = account →
            (NextRoleArn c role inputAccountID w).1
            = Done ("arn:" +:+ p +:+ ":iam::" +:+ account +:+ ":role/" +:+ role,
                    None))).
Proof.
  split; [done|]. intros id1 id2 p Hrole Hid1 Hid2 Hp.
  unfold NextRoleArn. rewrite (bool_decide_eq_false_2 _ Hrole).
  unfold partition, identity. rewrite Hid1. simpl. rewrite Hid2, (partition_of_is _ _ Hp).
  simpl. split; [done|]. render. split.
  - intros Hacc. by rewrite bool_decide_eq_false_2.
  - intros account -> <-. by rewrite bool_decide_eq_true_2.
Qed.

Definition bob : GetCallerIdentityOutput :=
  mkIdentity "222222222222" "arn:aws:iam::222222222222:user/bob".

Lemma NextRoleArn_spec_witness :
  "deploy" ≠ ""
  ∧ partition_is "aws" (Arn bob)
  ∧ (NextRoleArn zero "deploy" "" (world_of bob)).1
    = Done ("arn:aws:iam::222222222222:role/deploy", None)
  ∧ (NextRoleArn zero "deploy" "333333333333" (world_of bob)).1
    = Done ("arn:aws:iam::333333333333:role/deploy", None).
Proof.
  assert (partition_is "aws" (Arn bob)) as Hp
    by (by apply (partition_is_intro "arn" "aws" ":iam::222222222222:user/bob"); [| |right]).
  split; [discriminate|]. split; [exact Hp|].
  assert ("deploy" ≠ "") as Hrole by discriminate.
  assert ("333333333333" ≠ "") as Hacc by discriminate.
  split.
  - exact (proj2 (proj2 (proj2 (NextRoleArn_spec zero "deploy" "" (world_of bob))
                           bob bob "aws" Hrole eq_refl eq_refl Hp))
             "222222222222" eq_refl eq_refl).
  - exact (proj1 (proj2 (proj2 (NextRoleArn_spec zero "deploy" "333333333333" (world_of bob))
                           bob bob "aws" Hrole eq_refl eq_refl Hp)) Hacc).
Defined.

(** X11: [NewFromStsSdk] panics on a nil pointer; otherwise it behaves as
    [New] on the three values, so it succeeds exactly when none of them is
    empty, and the credentials it returns never have a region. *)
Theorem NewFromStsSdk_spec :
  NewFromStsSdk None = Panic nil_dereference
  ∧ (∀ sc, sts.AccessKeyId sc = None ∨ sts.SecretAccessKey sc = None
           ∨ sts.SessionToken sc = None →
           NewFromStsSdk (Some sc) = Panic nil_dereference)
  ∧ (∀ a s t, a ≠ "" → s ≠ "" → t ≠ "" →
       NewFromStsSdk (Some (sts.mkCredentials (Some a) (Some s) (Some t)))
       = Done (mkCreds a s t "", None))
  ∧ (∀ a s t, a = "" ∨ s = "" ∨ t = "" →
       ∃ err, NewFromStsSdk (Some (sts.mkCredentials (Some a) (Some s) (Some t)))
              = Done (zero, Some err))
  ∧ (∀ sc c err, NewFromStsSdk sc = Done (c, err) → Region c = "").
Proof.
  split_and!.
  - done.
  - intros [[a|] [s|] [t|]]; simpl; intros [H|[H|H]]; done.
  - intros a s t Ha Hs Ht. unfold NewFromStsSdk. simpl. rewrite New_New_of.
    unfold New_of.
    change (list_to_map [("AccessKey", a); ("SecretKey", s); ("SessionToken", t)]
            !!! "AccessKey") with a.
    change (list_to_map [("AccessKey", a); ("SecretKey", s); ("SessionToken", t)]
            !!! "SecretKey") with s.
    change (list_to_map [("AccessKey", a); ("SecretKey", s); ("SessionToken", t)]
            !!! "SessionToken") with t.
    by rewrite !decide_False.
  - intros a s t H. unfold NewFromStsSdk. simpl. rewrite New_New_of.
    unfold New_of.
    change (list_to_map [("AccessKey", a); ("SecretKey", s); ("SessionToken", t)]
            !!! "AccessKey") with a.
    change (list_to_map [("AccessKey", a); ("SecretKey", s); ("SessionToken", t)]
            !!! "SecretKey") with s.
    change (list_to_map [("AccessKey", a); ("SecretKey", s); ("SessionToken", t)]
            !!! "SessionToken") with t.
    repeat case_decide; eauto. destruct H as [?|[?|?]]; done.
  - intros [[[a|] [s|] [t|]]|] c err; simpl; try done.
    rewrite New_New_of. unfold New_of.
    repeat case_decide; by intros [= <- <-].
Qed.

(** X12: nothing of the caller's identity is kept: every call of
    [AccountID], [MfaArn], [partition], [namespace], [SessionName] and
    [ToSignoutURL] makes one round trip to the identity service, whatever it
    answers, and [NextRoleArn] with a role makes one or two. *)
Theorem identity_never_cached (c : Creds) (w : World) :
  sts_calls (AccountID c w).2 = S (sts_calls w)
  ∧ sts_calls (MfaArn c w).2 = S (sts_calls w)
  ∧ sts_calls (partition c w).2 = S (sts_calls w)
  ∧ sts_calls (namespace c w).2 = S (sts_calls w)
  ∧ sts_calls (SessionName c w).2 = S (sts_calls w)
  ∧ sts_calls (ToSignoutURL c w).2 = S (sts_calls w)
  ∧ (∀ role inputAccountID, role ≠ "" →
       sts_calls (NextRoleArn c role inputAccountID w).2
       = match sts_reply w c (sts_calls w) with
         | inl _ => S (S (sts_calls w))
         | inr _ => S (sts_calls w)
         end).
Proof.
  assert (sts_calls (partition c w).2 = S (sts_calls w)) as Hpart.
  { unfold partition, identity. by destruct (sts_reply w c (sts_calls w)). }
  assert (sts_calls (namespace c w).2 = S (sts_calls w)) as Hns.
  { unfold namespace. destruct (partition c w) as [[[p [e|]]|msg] w']; simpl in *;
      [done| |done]. by destruct (namespaces !! p). }
  split_and!; try done.
  - unfold AccountID, identity. by destruct (sts_reply w c (sts_calls w)).
  - unfold MfaArn, identity. by destruct (sts_reply w c (sts_calls w)).
  - unfold SessionName, identity. by destruct (sts_reply w c (sts_calls w)).
  - unfold ToSignoutURL. by destruct (namespace c w) as [[[ns [e|]]|msg] w'].
  - intros role acct Hrole. unfold NextRoleArn.
    rewrite (bool_decide_eq_false_2 _ Hrole). unfold partition, identity.
    destruct (sts_reply w c (sts_calls w)) as [id1|e]; [|done]. simpl.
    destruct (sts_reply w c (S (sts_calls w))) as [id2|e]; [|done].
    by destruct (partition_of (Arn id2)) as [[p [e|]]|msg].
Qed.

(** X13: an error of the identity service comes out of every accessor as it
    is, next to an empty string; [NextRoleArn], which asks twice, returns the
    error of its second question in the same way when the first one was
    answered. *)
Theorem identity_error_surfaces (c : Creds) (w : World) (err : error) :
  (sts_reply w c (sts_calls w) = inr err →
     (AccountID c w).1 = ("", Some err)
     ∧ (MfaArn c w).1 = ("", Some err)
     ∧ (partition c w).1 = Done ("", Some err)
     ∧ (namespace c w).1 = Done ("", Some err)
     ∧ (SessionName c w).1 = Done ("", Some err)
     ∧ (ToSignoutURL c w).1 = Done ("", Some err)
     ∧ (∀ role inputAccountID, role ≠ "" →
          (NextRoleArn c role inputAccountID w).1 = Done ("", Some err)))
  ∧ (∀ id1 role inputAccountID, role ≠ "" →
       sts_reply w c (sts_calls w) = inl id1 →
       sts_reply w c (S (sts_calls w)) = inr err →
       (NextRoleArn c role inputAccountID w).1 = Done ("", Some err)
       ∧ sts_calls (NextRoleArn c role inputAccountID w).2 = S (S (sts_calls w))).
Proof.
  split.
  - intros Hid.
    unfold AccountID, MfaArn, ToSignoutURL, namespace, partition, SessionName, NextRoleArn,
      identity.
    rewrite Hid. split_and!; try done.
    intros role acct Hrole. by rewrite (bool_decide_eq_false_2 _ Hrole).
  - intros id1 role acct Hrole Hid1 Hid2.
    unfold NextRoleArn, partition, identity.
    rewrite (bool_decide_eq_false_2 _ Hrole), Hid1. simpl. by rewrite Hid2.
Qed.

(** The identity service answering its first question with [id] and failing
    with [err] from then on. *)
Definition world_failing_after (id : GetCallerIdentityOutput) (err : error) : World :=
  mkWorld 0 (λ _ n, if decide (n = 0) then inl id else inr err) 0 (λ _, ("", None)).

Lemma identity_error_surfaces_witness :
  (MfaArn zero (mkWorld 0 (λ _ _, inr (errorString "ExpiredToken")) 0 (λ _, ("", None)))).1
  = ("", Some (errorString "ExpiredToken"))
  ∧ (NextRoleArn zero "deploy" ""
       (world_failing_after alice (errorString "ExpiredToken"))).1
    = Done ("", Some (errorString "ExpiredToken")).
Proof.
  assert ("deploy" ≠ "") as Hrole by discriminate.
  split.
  - exact (proj1 (proj2 (proj1 (identity_error_surfaces zero
      (mkWorld 0 (λ _ _, inr (errorString "ExpiredToken")) 0 (λ _, ("", None)))
      (errorString "ExpiredToken")) eq_refl))).
  - exact (proj1 (proj2 (identity_error_surfaces zero
      (world_failing_after alice (errorString "ExpiredToken"))
      (errorString "ExpiredToken")) alice "deploy" "" Hrole eq_refl eq_refl)).
Defined.

End CredsProps.

(** ** More on Lifetime and Mfa: getters, [configureMfa], sequences of calls *)

Module ExecutorsProps.
Import GoStrings GoFmt Regexp StringFacts RegexpFacts.
Import creds executors CredsSpec ExecutorsSpec.

(** X15: what [GetMfa] returns after [SetMfa(b)] is [b] or the presence of a
    code: [SetMfa(false)] does not switch MFA off while a code is stored, and
    it does when none is. *)
Theorem GetMfa_after_SetMfa (b : bool) (m : Mfa) :
  (SetMfa b m).1 = None
  ∧ (GetMfa (SetMfa b m).2).1 = (b || bool_decide (mfaCode m ≠ ""), None)
  ∧ useMfa (GetMfa (SetMfa b m).2).2 = b || bool_decide (mfaCode m ≠ "").
Proof.
  unfold GetMfa, SetMfa. simpl.
  destruct b, (bool_decide (mfaCode m ≠ "")); done.
Qed.

(** What a call of [GetMfaCode] does: it returns the stored code, or it asks
    the prompt, the default one when none was installed, and stores the
    answer as it comes. *)
Lemma GetMfaCode_cases (m : Mfa) (w : World) :
  (mfaCode m ≠ "" ∧ GetMfaCode m w = ((mfaCode m, None), m, w))
  ∨ (mfaCode m = ""
     ∧ ∃ x w', Prompt (default DefaultMfaPrompt (mfaPrompt m)) w = ((x, None), w')
               ∧ GetMfaCode m w
                 = ((x, None),
                    mkMfa (useMfa m) (mfaSerial m) x
                          (Some (default DefaultMfaPrompt (mfaPrompt m))), w'))
  ∨ (mfaCode m = ""
     ∧ ∃ x e w', Prompt (default DefaultMfaPrompt (mfaPrompt m)) w = ((x, Some e), w')
                 ∧ GetMfaCode m w
                   = (("", Some e),
                      mkMfa (useMfa m) (mfaSerial m) (mfaCode m)
                            (Some (default DefaultMfaPrompt (mfaPrompt m))), w')).
Proof.
  unfold GetMfaCode, GetMfaPrompt. case_bool_decide as Hc; [|by left]. right.
  destruct m as [u s code [p|]];
    cbn [mfaCode mfaPrompt mfaSerial useMfa default from_option] in *; cbv beta iota.
  - destruct (Prompt p w) as [[x [e|]] w'] eqn:E;
      [right; split; [done|]; by exists x, e, w' | left; split; [done|]; by exists x, w'].
  - destruct (Prompt DefaultMfaPrompt w) as [[x [e|]] w'] eqn:E;
      [right; split; [done|]; by exists x, e, w' | left; split; [done|]; by exists x, w'].
Qed.

(** X16: a code that [GetMfaCode] has returned, when it is not empty, is
    stored: the next call returns the same code and leaves the receiver and
    the world as they are, so the prompt is not asked again. *)
Theorem GetMfaCode_cached (m : Mfa) (w : World) (v : string) (m1 : Mfa) (w1 : World) :
  GetMfaCode m w = ((v, None), m1, w1) → v ≠ "" →
  mfaCode m1 = v ∧ GetMfaCode m1 w1 = ((v, None), m1, w1).
Proof.
  intros H Hv.
  assert (mfaCode m1 = v) as Hcode.
  { destruct (GetMfaCode_cases m w)
      as [[Hc E] | [[Hc (x & w' & _ & E)] | [Hc (x & e & w' & _ & E)]]];
      rewrite E in H; by simplify_eq. }
  split; [done|].
  destruct (GetMfaCode_cases m1 w1) as [[_ ->] | [[Hc _] | [Hc _]]]; [|congruence..].
  by rewrite Hcode.
Qed.

(** A prompt that answers the same code to every question. *)
Definition fixed_prompt (code : string) : MfaPrompt :=
  mkMfaPrompt (λ w, ((code, None), w)).

Lemma GetMfaCode_cached_witness :
  GetMfaCode (mkMfa true "" "" (Some (fixed_prompt "123456"))) (world_of alice)
    = (("123456", None), mkMfa true "" "123456" (Some (fixed_prompt "123456")),
       world_of alice)
  ∧ "123456" ≠ ""
  ∧ GetMfaCode (mkMfa true "" "123456" (Some (fixed_prompt "123456"))) (world_of alice)
    = (("123456", None), mkMfa true "" "123456" (Some (fixed_prompt "123456")),
       world_of alice).
Proof.
  split; [reflexivity|]. split; [discriminate|].
  assert ("123456" ≠ "") as Hne by discriminate.
  exact (proj2 (GetMfaCode_cached (mkMfa true "" "" (Some (fixed_prompt "123456")))
                  (world_of alice) "123456" _ _ eq_refl Hne)).
Defined.

(** X17: [GetMfaCode] stores the answer of the prompt without the check
    [SetMfaCode] makes: an answer that [SetMfaCode] would refuse becomes the
    stored code all the same; an error of the prompt is returned with an
    empty code and stores nothing. *)
Theorem GetMfaCode_unchecked (m : Mfa) (w : World) (p : MfaPrompt) :
  mfaCode m = "" → mfaPrompt m = Some p →
  (∀ x w', Prompt p w = ((x, None), w') →
     GetMfaCode m w = ((x, None), mkMfa (useMfa m) (mfaSerial m) x (Some p), w')
     ∧ (bad_code x → (SetMfaCode x m).1 ≠ None))
  ∧ (∀ x e w', Prompt p w = ((x, Some e), w') →
       GetMfaCode m w = (("", Some e), m, w')).
Proof.
  intros Hc Hp.
  pose proof (GetMfaCode_cases m w) as Hcases. rewrite Hp in Hcases. simpl in Hcases.
  split.
  - intros x w' HP. split.
    + destruct Hcases as [[? _] | [[_ (x' & w'' & HP' & ->)] | [_ (x' & e & w'' & HP' & _)]]];
        [done | |]; rewrite HP in HP'; by simplify_eq.
    + intros Hbad. destruct (SetMfaCode_spec x m) as [[[->|Hok] _] | [_ ->]];
        [by destruct Hbad | by destruct Hbad | done].
  - intros x e w' HP.
    destruct Hcases as [[? _] | [[_ (x' & w'' & HP' & _)] | [_ (x' & e' & w'' & HP' & ->)]]];
      [done | |]; rewrite HP in HP'; simplify_eq.
    destruct m; simpl in *. by subst.
Qed.

Lemma GetMfaCode_unchecked_witness :
  mfaCode (mkMfa true "" "" (Some (fixed_prompt "abc"))) = ""
  ∧ bad_code "abc"
  ∧ GetMfaCode (mkMfa true "" "" (Some (fixed_prompt "abc"))) (world_of alice)
    = (("abc", None), mkMfa true "" "abc" (Some (fixed_prompt "abc")), world_of alice)
  ∧ (SetMfaCode "abc" (mkMfa true "" "" (Some (fixed_prompt "abc")))).1 ≠ None.
Proof.
  assert (bad_code "abc") as Hbad by (split; [discriminate | by intros [[=] _]]).
  split; [reflexivity|]. split; [exact Hbad|].
  pose proof (proj1 (GetMfaCode_unchecked (mkMfa true "" "" (Some (fixed_prompt "abc")))
    (world_of alice) (fixed_prompt "abc") eq_refl eq_refl) "abc" (world_of alice) eq_refl)
    as [H1 H2].
  split; [exact H1 | exact (H2 Hbad)].
Defined.

(** X14: [SetMfaCode] takes the empty string and the strings of exactly six
    digits, stores them and touches nothing else; every other string gives the
    malformed-code error and leaves the receiver. *)
Theorem SetMfaCode_accepts (val : string) (m : Mfa) :
  ((SetMfaCode val m).1 = None ↔
     val = "" ∨ (String.length val = 6 ∧ all_bytes is_digit val = true))
  ∧ ((SetMfaCode val m).1 = None →
       (SetMfaCode val m).2 = mkMfa (useMfa m) (mfaSerial m) val (mfaPrompt m))
  ∧ ((SetMfaCode val m).1 ≠ None →
       SetMfaCode val m = (Some (errorString ("MFA Code is malformed: " +:+ val)), m)).
Proof.
  destruct (SetMfaCode_spec val m) as [[Hok ->] | [[H1 H2] ->]]; simpl.
  - split_and!; [done | done | congruence].
  - split_and!; [|congruence | done]. split; [done|]. intros [?|?]; [done|].
    by destruct H2.
Qed.

(** X18: each getter of [Mfa] writes its own field only: [GetMfa] leaves the
    serial, the code and the prompt, [GetMfaSerial] leaves the flag, the code,
    the prompt and the terminal, [GetMfaCode] leaves the flag and the serial,
    and [GetMfaPrompt] leaves the flag, the serial and the code. *)
Theorem getters_frame (m : Mfa) (w : World) :
  (mfaSerial (GetMfa m).2 = mfaSerial m ∧ mfaCode (GetMfa m).2 = mfaCode m
   ∧ mfaPrompt (GetMfa m).2 = mfaPrompt m)
  ∧ (useMfa (GetMfaSerial m w).1.2 = useMfa m ∧ mfaCode (GetMfaSerial m w).1.2 = mfaCode m
     ∧ mfaPrompt (GetMfaSerial m w).1.2 = mfaPrompt m
     ∧ stdin_reads (GetMfaSerial m w).2 = stdin_reads w)
  ∧ (useMfa (GetMfaCode m w).1.2 = useMfa m
     ∧ mfaSerial (GetMfaCode m w).1.2 = mfaSerial m)
  ∧ (useMfa (GetMfaPrompt m).2 = useMfa m ∧ mfaSerial (GetMfaPrompt m).2 = mfaSerial m
     ∧ mfaCode (GetMfaPrompt m).2 = mfaCode m).
Proof.
  split_and!.
  - unfold GetMfa. by destruct (_ && _).
  - unfold GetMfa. by destruct (_ && _).
  - unfold GetMfa. by destruct (_ && _).
  - apply GetMfaSerial_useMfa.
  - destruct (GetMfaSerial_cases m w) as [[_ ->] | [[_ (v & _ & ->)] | [_ (e & ->)]]]; done.
  - destruct (GetMfaSerial_cases m w) as [[_ ->] | [[_ (v & _ & ->)] | [_ (e & ->)]]]; done.
  - destruct (GetMfaSerial_cases m w) as [[_ ->] | [[_ (v & _ & ->)] | [_ (e & ->)]]]; done.
  - apply GetMfaCode_useMfa.
  - destruct (GetMfaCode_cases m w)
      as [[_ ->] | [[_ (x & w' & _ & ->)] | [_ (x & e & w' & _ & ->)]]]; done.
  - unfold GetMfaPrompt. by destruct (mfaPrompt m).
  - unfold GetMfaPrompt. by destruct (mfaPrompt m).
  - unfold GetMfaPrompt. by destruct (mfaPrompt m).
Qed.

(** *** configureMfa *)

(** X19: while MFA is neither switched on nor implied by a stored code,
    [configureMfa] does nothing: the request, the receiver and the world are
    as before, no prompt and no lookup is made, and a request of a type it
    does not know gives no error. *)
Theorem configureMfa_disabled (paramsIface : params) (m : Mfa) (w : World) :
  useMfa m = false → mfaCode m = "" →
  configureMfa paramsIface m w = ((None, paramsIface), m, w).
Proof.
  intros Hu Hc. unfold configureMfa, GetMfa. rewrite Hu, Hc. simpl. by rewrite Hu.
Qed.

Lemma configureMfa_disabled_witness :
  configureMfa (OtherParams "*sts.GetCallerIdentityInput") (mkMfa false "" "" None)
               (world_of role_foo)
  = ((None, OtherParams "*sts.GetCallerIdentityInput"), mkMfa false "" "" None,
     world_of role_foo).
Proof.
  exact (configureMfa_disabled (OtherParams "*sts.GetCallerIdentityInput")
           (mkMfa false "" "" None) (world_of role_foo) eq_refl eq_refl).
Defined.

(** X20: when [configureMfa] returns no error, either MFA is off and the
    request is untouched, or the request is one of the two known ones and its
    token code and serial number are now the code and the serial stored in the
    receiver. *)
Theorem configureMfa_result (paramsIface params' : params) (m m' : Mfa) (w w' : World) :
  configureMfa paramsIface m w = ((None, params'), m', w') →
  (useMfa m' = false ∧ params' = paramsIface ∧ m' = m ∧ w' = w)
  ∨ (useMfa m' = true
     ∧ ((∃ t s, paramsIface = AssumeRoleInput t s)
          ∧ params' = AssumeRoleInput (Some (mfaCode m')) (Some (mfaSerial m'))
        ∨ (∃ t s, paramsIface = GetSessionTokenInput t s)
          ∧ params' = GetSessionTokenInput (Some (mfaCode m')) (Some (mfaSerial m')))).
Proof.
  unfold configureMfa.
  destruct (GetMfa m) as [[u err] m1] eqn:EG.
  assert (err = None ∧ u = useMfa m1
          ∧ (u = false → m1 = m)) as (-> & -> & Hsame).
  { unfold GetMfa in EG. destruct (negb (useMfa m) && _) eqn:E; simplify_eq; simpl; [done|].
    split_and!; try done. }
  destruct (useMfa m1) eqn:Eu; simpl.
  2:{ intros [= <- <- <-]. left. rewrite Hsame by done. split_and!; try done.
      by rewrite <-(Hsame eq_refl). }
  pose proof (GetMfaCode_useMfa m1 w) as Hu2.
  destruct (GetMfaCode_cases m1 w)
    as [[_ E] | [[_ (x & w2 & _ & E)] | [_ (x & e & w2 & _ & E)]]]; rewrite E in Hu2 |- *;
    simpl in Hu2; [| |done].
  - pose proof (GetMfaSerial_useMfa m1 w) as Hu3.
    destruct (GetMfaSerial_cases m1 w) as [[_ E3] | [[_ (v & _ & E3)] | [_ (e & E3)]]];
      rewrite E3 in Hu3 |- *; simpl in Hu3; [| |done];
      destruct paramsIface; intros H; simplify_eq; right; (split; [by rewrite ?Eu|]);
      [left | right | left | right]; (split; [by eexists _, _ | done]).
  - set (m2 := mkMfa (useMfa m1) (mfaSerial m1) x
                     (Some (default DefaultMfaPrompt (mfaPrompt m1)))) in *.
    pose proof (GetMfaSerial_useMfa m2 w2) as Hu3.
    destruct (GetMfaSerial_cases m2 w2) as [[_ E3] | [[_ (v & _ & E3)] | [_ (e & E3)]]];
      rewrite E3 in Hu3 |- *; simpl in Hu3; [| |done];
      destruct paramsIface; intros H; simplify_eq; right; (split; [by rewrite ?Eu|]);
      [left | right | left | right]; (split; [by eexists _, _ | done]).
Qed.

Lemma configureMfa_result_witness :
  configureMfa (AssumeRoleInput None None)
               (mkMfa false "arn:aws:iam::111111111111:mfa/alice" "123456" None)
               (world_of alice)
    = ((None, AssumeRoleInput (Some "123456") (Some "arn:aws:iam::111111111111:mfa/alice")),
       mkMfa true "arn:aws:iam::111111111111:mfa/alice" "123456" None, world_of alice)
  ∧ ((useMfa (mkMfa true "arn:aws:iam::111111111111:mfa/alice" "123456" None) = false
      ∧ AssumeRoleInput (Some "123456") (Some "arn:aws:iam::111111111111:mfa/alice")
        = AssumeRoleInput None None
      ∧ mkMfa true "arn:aws:iam::111111111111:mfa/alice" "123456" None
        = mkMfa false "arn:aws:iam::111111111111:mfa/alice" "123456" None
      ∧ world_of alice = world_of alice)
     ∨ (useMfa (mkMfa true "arn:aws:iam::111111111111:mfa/alice" "123456" None) = true
        ∧ ((∃ t s, AssumeRoleInput None None = AssumeRoleInput t s)
             ∧ AssumeRoleInput (Some "123456") (Some "arn:aws:iam::111111111111:mfa/alice")
               = AssumeRoleInput
                   (Some (mfaCode (mkMfa true "arn:aws:iam::111111111111:mfa/alice"
                                         "123456" None)))
                   (Some (mfaSerial (mkMfa true "arn:aws:iam::111111111111:mfa/alice"
                                           "123456" None)))
           ∨ (∃ t s, AssumeRoleInput None None = GetSessionTokenInput t s)
             ∧ AssumeRoleInput (Some "123456") (Some "arn:aws:iam::111111111111:mfa/alice")
               = GetSessionTokenInput
                   (Some (mfaCode (mkMfa true "arn:aws:iam::111111111111:mfa/alice"
                                         "123456" None)))
                   (Some (mfaSerial (mkMfa true "arn:aws:iam::111111111111:mfa/alice"
                                           "123456" None)))))).
Proof.
  split; [reflexivity|].
  exact (configureMfa_result (AssumeRoleInput None None) _
           (mkMfa false "arn:aws:iam::111111111111:mfa/alice" "123456" None) _
           (world_of alice) _ eq_refl).
Defined.





(** *** Sequences of calls *)

(** A call of a method of [Lifetime]. *)
Inductive lifetime_call :=
| CallSetLifetime (val : Z)
| CallGetLifetime.

Definition run_lifetime (l : Lifetime) (c : lifetime_call) : Lifetime :=
  match c with
  | CallSetLifetime val => (SetLifetime val l).2
  | CallGetLifetime => (GetLifetime l).2
  end.

Definition lifetime_ok (l : Lifetime) : Prop :=
  lifetimeInt l = 0%Z ∨ (900 ≤ lifetimeInt l ≤ 3600)%Z.

Lemma run_lifetime_ok (l : Lifetime) (c : lifetime_call) :
  lifetime_ok l → lifetime_ok (run_lifetime l c).
Proof.
  unfold lifetime_ok. intros Hl. destruct c as [val|]; simpl.
  - destruct (SetLifetime_cases val l) as [[H ->] | [_ ->]]; [|done]. exact H.
  - unfold GetLifetime. case_bool_decide; simpl; [right; lia | done].
Qed.

(** X22: starting from a fresh [Lifetime], whatever sequence of [SetLifetime]
    and [GetLifetime] calls is made, with whatever arguments, the stored value
    is 0 or within 900..3600, and [GetLifetime] returns a value within
    900..3600 and no error. *)
Theorem Lifetime_invariant (calls : list lifetime_call) :
  lifetime_ok (foldl run_lifetime (mkLifetime 0) calls)
  ∧ (900 ≤ (GetLifetime (foldl run_lifetime (mkLifetime 0) calls)).1.1 ≤ 3600)%Z
  ∧ (GetLifetime (foldl run_lifetime (mkLifetime 0) calls)).1.2 = None.
Proof.
  assert (∀ l, lifetime_ok l → lifetime_ok (foldl run_lifetime l calls)) as Hinv.
  { induction calls as [|c calls IH]; intros l Hl; [done|].
    simpl. by apply IH, run_lifetime_ok. }
  pose proof (Hinv (mkLifetime 0) (or_introl eq_refl)) as Hok.
  split; [done|]. split; [|done].
  unfold GetLifetime. destruct Hok as [-> | Hok]; [simpl; lia|].
  case_bool_decide; simpl; lia.
Qed.

(** The serial and the code are empty or well formed. *)
Definition well_formed (m : Mfa) : Prop :=
  (mfaSerial m = "" ∨ mfa_arn (λ account, account ≠ "") (mfaSerial m))
  ∧ (mfaCode m = "" ∨ mfa_code (mfaCode m)).

Definition is_setter (c : call) : Prop :=
  match c with
  | CallSetMfa _ | CallSetMfaSerial _ | CallSetMfaCode _ | CallSetMfaPrompt _ => True
  | _ => False
  end.

Lemma run_setter_well_formed (st : Mfa * World) (c : call) :
  is_setter c → well_formed st.1 → well_formed (run st c).1 ∧ (run st c).2 = st.2.
Proof.
  intros Hc [Hs Hcode]. destruct c as [b | val | val | val | | | | |]; try done;
    unfold run; cbv beta iota; (split; [|done]); unfold well_formed.
  - unfold SetMfaSerial.
    destruct (bool_decide (val = "") || MatchString mfaArnRegex val) eqn:E; [|done].
    split; [|done]. simpl.
    apply orb_true_iff in E as [E%bool_decide_eq_true | E%mfaArnRegex_spec]; auto.
  - destruct (SetMfaCode_spec val st.1) as [[Hok ->] | [_ ->]]; [|done].
    by split.
Qed.

(** X23: the setters keep what is stored well formed: after any sequence of
    calls of [SetMfa], [SetMfaSerial], [SetMfaCode] and [SetMfaPrompt], failed
    ones included, on a receiver whose serial and code are empty or well
    formed, the serial is empty or matches the pattern of serials, the code
    is empty or six digits, and the world has not been touched. *)
Theorem setters_keep_well_formed (calls : list call) (m : Mfa) (w : World) :
  well_formed m → Forall is_setter calls →
  well_formed (run_all (m, w) calls).1 ∧ (run_all (m, w) calls).2 = w.
Proof.
  revert m w. induction calls as [|c calls IH]; intros m w Hm Hcalls; [done|].
  apply Forall_cons in Hcalls as [Hc Hcalls]. simpl.
  destruct (run_setter_well_formed (m, w) c Hc Hm) as [Hwf Hw].
  destruct (run (m, w) c) as [m1 w1]. simpl in *. subst w1. by apply IH.
Qed.

Lemma setters_keep_well_formed_witness :
  well_formed (mkMfa false "" "" None)
  ∧ Forall is_setter [CallSetMfaCode "123456"; CallSetMfaSerial "nonsense"; CallSetMfa true]
  ∧ well_formed
      (run_all (mkMfa false "" "" None, world_of alice)
         [CallSetMfaCode "123456"; CallSetMfaSerial "nonsense"; CallSetMfa true]).1.
Proof.
  assert (well_formed (mkMfa false "" "" None)) as H0 by (split; by left).
  assert (Forall is_setter
            [CallSetMfaCode "123456"; CallSetMfaSerial "nonsense"; CallSetMfa true]) as H1
    by (repeat constructor).
  split; [exact H0|]. split; [exact H1|].
  exact (proj1 (setters_keep_well_formed _ (mkMfa false "" "" None) (world_of alice) H0 H1)).
Defined.

(** *** The default serial and the check of [SetMfaSerial] *)

Lemma HasPrefix_cons (a b : ascii) (p r : string) :
  HasPrefix (String b r) (String a p) = if Ascii.eqb a b then HasPrefix r p else false.
Proof. reflexivity. Qed.

Lemma Index_user_skip (c : ascii) (s : string) :
  c ≠ ":"%char → Index (String c s) ":user/" = S <$> Index s ":user/".
Proof.
  intros Hc. rewrite Index_unfold, HasPrefix_cons.
  by rewrite (proj2 (Ascii.eqb_neq ":" c)).
Qed.

Lemma Index_user_skip_colon (d : ascii) (s : string) :
  d ≠ "u"%char →
  Index (String ":" (String d s)) ":user/" = S <$> Index (String d s) ":user/".
Proof.
  intros Hd. rewrite Index_unfold, !HasPrefix_cons.
  by rewrite (proj2 (Ascii.eqb_neq "u" d)), Ascii.eqb_refl.
Qed.

Lemma digit_not_colon (c : ascii) : is_digit c = true → c ≠ ":"%char ∧ c ≠ "u"%char.
Proof. intros H. split; intros ->; by vm_compute in H. Qed.

Lemma Index_user_digits (ds rest : string) :
  all_bytes is_digit ds = true →
  Index (ds +:+ ":user/" +:+ rest) ":user/" = Some (String.length ds).
Proof.
  induction ds as [|d ds IH]; simpl all_bytes.
  - intros _. by rewrite app_nil_l, Index_unfold, HasPrefix_app.
  - intros [Hd Hds]%andb_true_iff. apply digit_not_colon in Hd as [Hd _].
    by rewrite app_cons, Index_user_skip, IH.
Qed.

Lemma user_arn_first_occurrence (gov account name : string) :
  gov = "" ∨ gov = "-us-gov" → account ≠ "" → all_bytes is_digit account = true →
  first_occurrence ":user/" ("arn:aws" +:+ gov +:+ ":iam::" +:+ account) name
    ("arn:aws" +:+ gov +:+ ":iam::" +:+ account +:+ ":user/" +:+ name).
Proof.
  intros Hgov Hacc Hdig.
  assert ("arn:aws" +:+ gov +:+ ":iam::" +:+ account +:+ ":user/" +:+ name
          = ("arn:aws" +:+ gov +:+ ":iam::" +:+ account) +:+ ":user/" +:+ name) as ->
    by (by rewrite !app_assoc).
  apply first_occurrence_Index. rewrite !app_assoc.
  destruct account as [|d ds]; [done|].
  pose proof Hdig as Hdig'. simpl in Hdig'. apply andb_true_iff in Hdig' as [Hd _].
  apply digit_not_colon in Hd as [_ Hd].
  destruct Hgov as [-> | ->]; rewrite !app_cons, !app_nil_l;
    repeat first [ rewrite Index_user_skip by discriminate
                 | rewrite Index_user_skip_colon by discriminate ];
    change (String ":" (String "u" (String "s" (String "e" (String "r" (String "/" name))))))
      with (":user/" +:+ name);
    rewrite (Index_user_skip_colon d) by done;
    rewrite <-app_cons, (Index_user_digits (String d ds)) by done;
    done.
Qed.

(** X24: for a caller that is a user without a path, whose ARN is arn:aws or
    arn:aws-us-gov, :iam::, an account of digits, :user/ and a name made of
    the bytes of [[\\w+=,.@-]], the serial [MfaArn] derives is the same ARN
    with :mfa/ in the place of :user/, and it is a serial [SetMfaSerial]
    accepts. *)
Theorem MfaArn_of_user_is_valid_serial (gov account name : string) (m : Mfa) :
  gov = "" ∨ gov = "-us-gov" →
  account ≠ "" → all_bytes is_digit account = true →
  name ≠ "" → all_bytes is_iam_char name = true →
  MfaArn_of ("arn:aws" +:+ gov +:+ ":iam::" +:+ account +:+ ":user/" +:+ name)
    = ("arn:aws" +:+ gov +:+ ":iam::" +:+ account +:+ ":mfa/" +:+ name, None)
  ∧ (SetMfaSerial
       (MfaArn_of ("arn:aws" +:+ gov +:+ ":iam::" +:+ account +:+ ":user/" +:+ name)).1
       m).1 = None.
Proof.
  intros Hgov Hacc Hdig Hname Hchars.
  rewrite (MfaArn_of_user _ _ _ (user_arn_first_occurrence gov account name Hgov Hacc Hdig)).
  rewrite !app_assoc. split; [done|]. simpl fst. unfold SetMfaSerial.
  assert (MatchString mfaArnRegex
            ("arn:aws" +:+ gov +:+ ":iam::" +:+ account +:+ ":mfa/" +:+ name) = true) as ->.
  { apply mfaArnRegex_spec. by exists gov, account, name. }
  by rewrite orb_true_r.
Qed.

Lemma MfaArn_of_user_is_valid_serial_witness :
  (SetMfaSerial (MfaArn_of "arn:aws-us-gov:iam::111111111111:user/alice").1
                (mkMfa false "" "" None)).1 = None.
Proof.
  assert ("111111111111" ≠ "") as H1 by discriminate.
  assert ("alice" ≠ "") as H2 by discriminate.
  exact (proj2 (MfaArn_of_user_is_valid_serial "-us-gov" "111111111111" "alice"
                  (mkMfa false "" "" None) (or_intror eq_refl) H1 eq_refl H2 eq_refl)).
Defined.

(** *** The default prompt *)

Lemma rev_app_spec (s1 s2 : string) : String.rev_app s1 s2 = String.rev s1 +:+ s2.
Proof.
  revert s2. induction s1 as [|a s1 IH]; intros s2; [done|].
  unfold String.rev. simpl. by rewrite !IH, app_assoc.
Qed.

Lemma rev_cons (a : ascii) (s : string) :
  String.rev (String a s) = String.rev s +:+ String a "".
Proof. unfold String.rev at 1. simpl. apply rev_app_spec. Qed.

Lemma rev_app_distr (s t : string) :
  String.rev (s +:+ t) = String.rev t +:+ String.rev s.
Proof.
  induction s as [|a s IH]; [by rewrite app_nil_l, app_nil_r|].
  by rewrite app_cons, !rev_cons, IH, app_assoc.
Qed.

Lemma rev_involutive (s : string) : String.rev (String.rev s) = s.
Proof.
  induction s as [|a s IH]; [done|]. by rewrite rev_cons, rev_app_distr, IH.
Qed.

(** **** White space *)

(** The strings made of characters of [ws]. *)
Inductive blank (ws : list string) : string → Prop :=
| blank_nil : blank ws ""
| blank_cons enc s : In enc ws → blank ws s → blank ws (enc +:+ s).

(** No encoding of [ws] is empty, and none is the start of another one. *)
Definition prefix_free (ws : list string) : bool :=
  forallb (λ e1,
    negb (String.eqb e1 "")
    && forallb (λ e2, implb (HasPrefix e1 e2) (String.eqb e1 e2)) ws) ws.

Lemma prefix_free_nonempty (ws : list string) (enc : string) :
  prefix_free ws = true → In enc ws → enc ≠ "".
Proof.
  intros Hws Hin. unfold prefix_free in Hws. rewrite forallb_forall in Hws.
  apply Hws, andb_true_iff in Hin as [Hne _]. intros ->. done.
Qed.

Lemma prefix_free_eq (ws : list string) (e1 e2 : string) :
  prefix_free ws = true → In e1 ws → In e2 ws → HasPrefix e1 e2 = true → e1 = e2.
Proof.
  intros Hws H1 H2 Hpre. unfold prefix_free in Hws. rewrite forallb_forall in Hws.
  apply Hws, andb_true_iff in H1 as [_ H1]. rewrite forallb_forall in H1.
  apply H1 in H2. rewrite Hpre in H2. by apply String.eqb_eq.
Qed.

Lemma HasPrefix_weaken (a b enc : string) :
  HasPrefix a enc = true → HasPrefix (a +:+ b) enc = true.
Proof.
  intros H%HasPrefix_inv. rewrite H, app_assoc. apply HasPrefix_app.
Qed.

(** Of two strings that start the same string, one starts the other. *)
Lemma HasPrefix_both (s a b : string) :
  HasPrefix s a = true → HasPrefix s b = true →
  HasPrefix a b = true ∨ HasPrefix b a = true.
Proof.
  revert s b. induction a as [|x a IH]; intros s b Ha Hb.
  - right. by destruct b.
  - destruct b as [|y b]; [by left|].
    destruct s as [|z s]; [done|]. simpl in Ha, Hb |- *.
    destruct (Ascii.eqb x z) eqn:Ex; [|done]. apply Ascii.eqb_eq in Ex as ->.
    destruct (Ascii.eqb y z) eqn:Ey; [|done]. apply Ascii.eqb_eq in Ey as ->.
    rewrite Ascii.eqb_refl. by apply (IH s).
Qed.

Lemma leading_Some (ws : list string) (s : string) n :
  leading ws s = Some n →
  ∃ enc, In enc ws ∧ s = enc +:+ str_drop n s ∧ n = String.length enc.
Proof.
  unfold leading. destruct (find (HasPrefix s) ws) as [enc|] eqn:E; [|done].
  intros [= <-]. apply find_some in E as [Hin Hpre].
  exists enc. split; [done|]. split; [by apply HasPrefix_inv | done].
Qed.

Lemma leading_None (ws : list string) (s enc : string) :
  leading ws s = None → In enc ws → HasPrefix s enc = false.
Proof.
  unfold leading. destruct (find (HasPrefix s) ws) as [e|] eqn:E; [done|].
  intros _ Hin. by apply (find_none _ _ E).
Qed.

Lemma leading_None_intro (ws : list string) (s : string) :
  (∀ enc, In enc ws → HasPrefix s enc = false) → leading ws s = None.
Proof.
  intros H. unfold leading. destruct (find (HasPrefix s) ws) as [e|] eqn:E; [|done].
  apply find_some in E as [Hin Hpre]. rewrite (H e Hin) in Hpre. done.
Qed.

(** A string that starts with a character of [ws] starts with no other
    one. *)
Lemma leading_enc (ws : list string) (enc x : string) :
  prefix_free ws = true → In enc ws →
  leading ws (enc +:+ x) = Some (String.length enc).
Proof.
  intros Hws Hin. destruct (leading ws (enc +:+ x)) as [n|] eqn:E.
  - unfold leading in E. destruct (find _ ws) as [enc'|] eqn:F; [|done].
    injection E as <-. apply find_some in F as [Hin' Hpre'].
    destruct (HasPrefix_both _ _ _ (HasPrefix_app x enc) Hpre') as [H|H].
    + by rewrite (prefix_free_eq ws enc enc' Hws Hin Hin' H).
    + by rewrite (prefix_free_eq ws enc' enc Hws Hin' Hin H).
  - pose proof (leading_None ws _ enc E Hin) as H. by rewrite HasPrefix_app in H.
Qed.

Lemma leading_empty (ws : list string) :
  prefix_free ws = true → leading ws "" = None.
Proof.
  intros Hws. apply leading_None_intro. intros enc Hin.
  pose proof (prefix_free_nonempty ws enc Hws Hin). by destruct enc.
Qed.

Lemma leading_start (ws : list string) (a b : string) :
  leading ws (a +:+ b) = None → leading ws a = None.
Proof.
  intros H. apply leading_None_intro. intros enc Hin.
  destruct (HasPrefix a enc) eqn:E; [|done].
  apply (HasPrefix_weaken a b) in E. by rewrite (leading_None ws _ enc H Hin) in E.
Qed.

Lemma blank_app (ws : list string) (a b : string) :
  blank ws a → blank ws b → blank ws (a +:+ b).
Proof.
  induction 1 as [|enc s Hin Hs IH]; intros Hb; [done|].
  rewrite app_assoc. apply blank_cons; auto.
Qed.

Lemma blank_one (ws : list string) (enc : string) : In enc ws → blank ws enc.
Proof. intros Hin. rewrite <-(app_nil_r enc). apply blank_cons; [done | constructor]. Qed.

Lemma blank_rev (ws : list string) (s : string) :
  blank ws s → blank (String.rev <$> ws) (String.rev s).
Proof.
  induction 1 as [|enc s Hin Hs IH]; [constructor|].
  rewrite rev_app_distr. apply blank_app; [done|].
  apply blank_one, in_map_iff. by exists enc.
Qed.

Lemma rev_rev_list (ws : list string) : String.rev <$> (String.rev <$> ws) = ws.
Proof.
  induction ws as [|e ws IH]; [done|]. rewrite !fmap_cons, IH. by rewrite rev_involutive.
Qed.

Lemma rev_length (s : string) : String.length (String.rev s) = String.length s.
Proof.
  induction s as [|a s IH]; [done|]. rewrite rev_cons, app_length, IH. simpl. lia.
Qed.

(** [trim_left] takes a blank start off, up to where no character of [ws]
    starts. *)
Lemma trim_left_blank (ws : list string) (l x : string) fuel :
  prefix_free ws = true → blank ws l → leading ws x = None →
  (String.length l ≤ fuel)%nat →
  trim_left ws fuel (l +:+ x) = x.
Proof.
  intros Hws Hl Hx. revert fuel. induction Hl as [|enc s Hin Hs IH]; intros fuel Hlen.
  - rewrite app_nil_l. destruct fuel; [done|]. simpl. by rewrite Hx.
  - pose proof (prefix_free_nonempty ws enc Hws Hin) as Hne.
    rewrite app_length in Hlen.
    assert (String.length enc ≠ 0) by (destruct enc; simpl; congruence).
    destruct fuel as [|fuel]; [lia|]. simpl.
    rewrite app_assoc, (leading_enc ws enc _ Hws Hin), str_drop_app.
    apply IH. lia.
Qed.

(** What [trim_left] takes off is blank, and what it leaves starts with no
    character of [ws]. *)
Lemma trim_left_spec (ws : list string) fuel (s : string) :
  prefix_free ws = true → (String.length s ≤ fuel)%nat →
  ∃ l, blank ws l ∧ s = l +:+ trim_left ws fuel s
       ∧ leading ws (trim_left ws fuel s) = None.
Proof.
  intros Hws. revert s. induction fuel as [|fuel IH]; intros s Hlen.
  - assert (s = "") as -> by (apply length_zero; lia).
    exists "". split; [constructor|]. split; [done|]. by apply leading_empty.
  - simpl. destruct (leading ws s) as [n|] eqn:E.
    + destruct (leading_Some ws s n E) as (enc & Hin & Hs & ->).
      pose proof (prefix_free_nonempty ws enc Hws Hin) as Hne.
      assert (String.length enc ≠ 0) by (destruct enc; simpl; congruence).
      destruct (IH (str_drop (String.length enc) s)) as (l & Hl & Heq & Hnone).
      { rewrite str_drop_length. lia. }
      exists (enc +:+ l). split; [by apply blank_cons|]. split; [|done].
      by rewrite app_assoc, <-Heq.
    + exists "". split; [constructor|]. by split.
Qed.

(** The bytes from 128 to 191, which continue a character in UTF-8. *)
Definition is_cont (c : ascii) : bool :=
  (128 <=? nat_of_ascii c)%nat && (nat_of_ascii c <? 192)%nat.

(** Every white-space character is one byte that continues nothing, followed
    by bytes that continue it. *)
Definition starts_then_continues (enc : string) : bool :=
  match enc with
  | "" => false
  | String a rest => negb (is_cont a) && all_bytes is_cont rest
  end.

Lemma white_space_prefix_free : prefix_free white_space = true.
Proof. reflexivity. Qed.

Lemma white_space_rev_prefix_free : prefix_free (String.rev <$> white_space) = true.
Proof. reflexivity. Qed.

Lemma white_space_utf8 : forallb starts_then_continues white_space = true.
Proof. reflexivity. Qed.

Lemma blank_first_byte (b : ascii) (r : string) :
  blank white_space (String b r) → is_cont b = false.
Proof.
  intros H. remember (String b r) as s eqn:Es.
  induction H as [|enc s Hin Hs IH]; [done|].
  pose proof white_space_utf8 as Hutf. rewrite forallb_forall in Hutf.
  pose proof (Hutf enc Hin) as Henc.
  destruct enc as [|a rest]; [done|]. rewrite app_cons in Es. injection Es as -> _.
  simpl in Henc. apply andb_true_iff in Henc as [Ha _]. by apply negb_true_iff.
Qed.

(** Bytes that continue a character and start at the end of [x] run into a
    byte of [r] that continues a character. *)
Lemma continues_into (rest x r : string) :
  all_bytes is_cont rest = true →
  HasPrefix (x +:+ r) rest = true → HasPrefix x rest = false →
  ∃ b r', r = String b r' ∧ is_cont b = true.
Proof.
  revert x. induction rest as [|c rest IH]; intros x Hall Hxr Hx.
  - by destruct x.
  - simpl in Hall. apply andb_true_iff in Hall as [Hc Hall].
    destruct x as [|y x].
    + rewrite app_nil_l in Hxr. destruct r as [|b r']; [done|]. simpl in Hxr.
      destruct (Ascii.eqb c b) eqn:E; [|done]. apply Ascii.eqb_eq in E as <-.
      by exists c, r'.
    + rewrite app_cons in Hxr. simpl in Hxr, Hx.
      destruct (Ascii.eqb c y); [|done]. by apply (IH x).
Qed.

(** White space after a string that is not empty and starts with no
    white-space character does not make it start with one. *)
Lemma leading_before_blank (core r : string) :
  core ≠ "" → leading white_space core = None → blank white_space r →
  leading white_space (core +:+ r) = None.
Proof.
  intros Hne Hcore Hr. apply leading_None_intro. intros enc Hin.
  destruct (HasPrefix (core +:+ r) enc) eqn:E; [|done]. exfalso.
  pose proof (leading_None _ _ enc Hcore Hin) as Hno.
  pose proof white_space_utf8 as Hutf. rewrite forallb_forall in Hutf.
  pose proof (Hutf enc Hin) as Henc.
  destruct enc as [|a rest]; [done|]. destruct core as [|c core]; [done|].
  simpl in Henc. apply andb_true_iff in Henc as [_ Hrest].
  rewrite app_cons in E. simpl in E, Hno.
  destruct (Ascii.eqb a c); [|done].
  destruct (continues_into rest core r Hrest E Hno) as (b & r' & -> & Hb).
  by rewrite (blank_first_byte b r' Hr) in Hb.
Qed.

(** [s] neither starts nor ends with a white-space character. *)
Definition no_space_ends (s : string) : Prop :=
  leading white_space s = None
  ∧ leading (String.rev <$> white_space) (String.rev s) = None.

(** [TrimSpace] takes the white space off both ends and nothing else. *)
Lemma TrimSpace_spec (l core r : string) :
  blank white_space l → blank white_space r → no_space_ends core →
  TrimSpace (l +:+ core +:+ r) = core.
Proof.
  intros Hl Hr [Hfirst Hlast]. unfold TrimSpace.
  destruct core as [|c core].
  - rewrite app_nil_l. rewrite <-(app_nil_r r), <-app_assoc.
    rewrite trim_left_blank;
      [done | done | by apply blank_app | done
       | rewrite !app_length; simpl; lia].
  - rewrite trim_left_blank;
      [| done | done | by apply leading_before_blank | rewrite !app_length; lia].
    cbv zeta. rewrite rev_app_distr, trim_left_blank;
      [apply rev_involutive | done | by apply blank_rev | done
       | rewrite app_length, rev_length; lia].
Qed.

(** What [TrimSpace] takes off either end is white space, and what it
    returns neither starts nor ends with a white-space character. *)
Lemma TrimSpace_cut (s : string) :
  ∃ l r, blank white_space l ∧ blank white_space r
         ∧ s = l +:+ TrimSpace s +:+ r ∧ no_space_ends (TrimSpace s).
Proof.
  unfold TrimSpace.
  destruct (trim_left_spec white_space (String.length s) s white_space_prefix_free)
    as (l & Hl & Hs & Hnone); [done|].
  set (t := trim_left white_space (String.length s) s) in *. cbv zeta.
  destruct (trim_left_spec (String.rev <$> white_space) (String.length t) (String.rev t)
              white_space_rev_prefix_free) as (r' & Hr' & Ht & Hnone');
    [by rewrite rev_length|].
  set (u := trim_left (String.rev <$> white_space) (String.length t) (String.rev t)) in *.
  assert (t = String.rev u +:+ String.rev r') as Htu.
  { by rewrite <-rev_app_distr, <-Ht, rev_involutive. }
  exists l, (String.rev r'). split_and!.
  - done.
  - rewrite <-(rev_rev_list white_space). by apply blank_rev.
  - by rewrite <-Htu.
  - split; [|by rewrite rev_involutive].
    apply (leading_start _ _ (String.rev r')). by rewrite <-Htu.
Qed.

(** The world after one read from the terminal. *)
Definition after_read (w : World) : World :=
  mkWorld (sts_calls w) (sts_reply w) (S (stdin_reads w)) (stdin_reply w).

(** X25: the default prompt reads one line; a read error comes back with an
    empty code.  Otherwise the code is the line without the white space at its
    two ends, white space being the characters of [unicode.IsSpace] in UTF-8:
    what is cut off either end is white space, the code neither starts nor
    ends with a white-space character, and a line that is white space, a core
    that neither starts nor ends with white space, and white space gives the
    core.  [GetMfaCode], when no code is stored and no prompt was installed,
    stores that code and installs the default prompt. *)
Theorem DefaultMfaPrompt_spec (w : World) :
  (∀ x e, stdin_reply w (stdin_reads w) = (x, Some e) →
     Prompt DefaultMfaPrompt w = (("", Some e), after_read w))
  ∧ (∀ line, stdin_reply w (stdin_reads w) = (line, None) →
       ∃ l code r,
         blank white_space l ∧ blank white_space r ∧ no_space_ends code
         ∧ line = l +:+ code +:+ r
         ∧ Prompt DefaultMfaPrompt w = ((code, None), after_read w))
  ∧ (∀ l core r,
       stdin_reply w (stdin_reads w) = (l +:+ core +:+ r, None) →
       blank white_space l → blank white_space r → no_space_ends core →
       Prompt DefaultMfaPrompt w = ((core, None), after_read w)
       ∧ ∀ m, mfaCode m = "" → mfaPrompt m = None →
           GetMfaCode m w
           = ((core, None),
              mkMfa (useMfa m) (mfaSerial m) core (Some DefaultMfaPrompt), after_read w)).
Proof.
  split_and!.
  - intros x e H. simpl. by rewrite H.
  - intros line H. destruct (TrimSpace_cut line) as (l & r & Hl & Hr & Hline & Hends).
    exists l, (TrimSpace line), r. split_and!; try done. simpl. by rewrite H.
  - intros l core r H Hl Hr Hcore.
    assert (Prompt DefaultMfaPrompt w = ((core, None), after_read w)) as HP.
    { simpl. by rewrite H, TrimSpace_spec. }
    split; [done|]. intros m Hc Hp.
    destruct (GetMfaCode_cases m w)
      as [[? _] | [[_ (x & w' & HP' & ->)] | [_ (x & e & w' & HP' & _)]]];
      [done | |]; rewrite Hp in HP'; cbn [default from_option] in HP';
      rewrite HP in HP'; simplify_eq.
    by rewrite Hp.
Qed.

(** The terminal answering every read with [line]. *)
Definition world_typing (line : string) : World :=
  mkWorld 0 (λ _ _, inr (errorString "no identity")) 0 (λ _, (line, None)).

Lemma DefaultMfaPrompt_spec_witness :
  Prompt DefaultMfaPrompt
         (world_typing (" " +:+ "123456" +:+ bytes [0xC2; 0xA0; 0x0D; 0x0A]))
  = (("123456", None),
     after_read (world_typing (" " +:+ "123456" +:+ bytes [0xC2; 0xA0; 0x0D; 0x0A]))).
Proof.
  assert (blank white_space " ") as Hl.
  { apply blank_one. vm_compute. tauto. }
  assert (blank white_space (bytes [0xC2; 0xA0; 0x0D; 0x0A])) as Hr.
  { apply (blank_cons _ (bytes [0xC2; 0xA0]) (bytes [0x0D; 0x0A])); [vm_compute; tauto|].
    apply (blank_cons _ (bytes [0x0D]) (bytes [0x0A])); [vm_compute; tauto|].
    apply blank_one. vm_compute. tauto. }
  assert (no_space_ends "123456") as Hcore by (split; reflexivity).
  exact (proj1 (proj2 (proj2
           (DefaultMfaPrompt_spec
              (world_typing (" " +:+ "123456" +:+ bytes [0xC2; 0xA0; 0x0D; 0x0A]))))
           " " "123456" (bytes [0xC2; 0xA0; 0x0D; 0x0A]) eq_refl Hl Hr Hcore)).
Defined.

(** *** Setters followed by getters *)

(** X28: a serial that [SetMfaSerial] has taken comes back from
    [GetMfaSerial] as it is, without a lookup; [SetMfaSerial("")] empties the
    store, so that the next [GetMfaSerial] asks the identity service
    again. *)
Theorem GetMfaSerial_after_SetMfaSerial (val : string) (m : Mfa) (w : World) :
  (SetMfaSerial val m).1 = None →
  (val ≠ "" →
     GetMfaSerial (SetMfaSerial val m).2 w = ((val, None), (SetMfaSerial val m).2, w))
  ∧ (val = "" → sts_calls (GetMfaSerial (SetMfaSerial val m).2 w).2 = S (sts_calls w)).
Proof.
  intros Hok.
  assert ((SetMfaSerial val m).2 = mkMfa (useMfa m) val (mfaCode m) (mfaPrompt m)) as ->.
  { unfold SetMfaSerial in *. by destruct (_ || _). }
  split.
  - intros Hval.
    destruct (GetMfaSerial_cases (mkMfa (useMfa m) val (mfaCode m) (mfaPrompt m)) w)
      as [[_ ->] | [[? _] | [? _]]]; done.
  - intros ->.
    destruct (GetMfaSerial_cases (mkMfa (useMfa m) "" (mfaCode m) (mfaPrompt m)) w)
      as [[? _] | [[_ (v & _ & ->)] | [_ (e & ->)]]]; done.
Qed.

Lemma GetMfaSerial_after_SetMfaSerial_witness :
  (SetMfaSerial "arn:aws:iam::111111111111:mfa/bob" (mkMfa false "" "" None)).1 = None
  ∧ GetMfaSerial (SetMfaSerial "arn:aws:iam::111111111111:mfa/bob"
                               (mkMfa false "" "" None)).2 (world_of alice)
    = (("arn:aws:iam::111111111111:mfa/bob", None),
       (SetMfaSerial "arn:aws:iam::111111111111:mfa/bob" (mkMfa false "" "" None)).2,
       world_of alice).
Proof.
  split; [reflexivity|].
  assert ("arn:aws:iam::111111111111:mfa/bob" ≠ "") as Hne by discriminate.
  exact (proj1 (GetMfaSerial_after_SetMfaSerial "arn:aws:iam::111111111111:mfa/bob"
                  (mkMfa false "" "" None) (world_of alice) eq_refl) Hne).
Defined.

(** X29: once [SetMfaCode] has taken a code that is not empty, [GetMfa]
    returns true whatever the flag was, and [GetMfaCode] returns that code
    without asking the prompt. *)
Theorem getters_after_SetMfaCode (val : string) (m : Mfa) (w : World) :
  (SetMfaCode val m).1 = None → val ≠ "" →
  (GetMfa (SetMfaCode val m).2).1 = (true, None)
  ∧ GetMfaCode (SetMfaCode val m).2 w = ((val, None), (SetMfaCode val m).2, w).
Proof.
  intros Hok Hval.
  assert ((SetMfaCode val m).2 = mkMfa (useMfa m) (mfaSerial m) val (mfaPrompt m)) as ->.
  { unfold SetMfaCode in *. by destruct (_ || _). }
  split.
  - unfold GetMfa. simpl. rewrite (bool_decide_eq_true_2 _ Hval).
    by destruct (useMfa m).
  - destruct (GetMfaCode_cases (mkMfa (useMfa m) (mfaSerial m) val (mfaPrompt m)) w)
      as [[_ ->] | [[? _] | [? _]]]; done.
Qed.

Lemma getters_after_SetMfaCode_witness :
  (SetMfaCode "123456" (mkMfa false "" "" None)).1 = None
  ∧ "123456" ≠ ""
  ∧ (GetMfa (SetMfaCode "123456" (mkMfa false "" "" None)).2).1 = (true, None).
Proof.
  split; [reflexivity|]. split; [discriminate|].
  assert ("123456" ≠ "") as Hne by discriminate.
  exact (proj1 (getters_after_SetMfaCode "123456" (mkMfa false "" "" None)
                  (world_of alice) eq_refl Hne)).
Defined.

End ExecutorsProps.

(** ** More on package [utils] *)

Module UtilsProps.
Import GoStrings GoFmt StringFacts.
Import CredsSpec.

(** [translations["envvar"]] of [utils], in the order of the names. *)
Definition utils_envvar_sorted : list (string * string) := [
  ("AWS_ACCESS_KEY_ID", "AccessKey");
  ("AWS_SECRET_ACCESS_KEY", "SecretKey");
  ("AWS_SECURITY_TOKEN", "SessionToken");
  ("AWS_SESSION_TOKEN", "SessionToken")].

Lemma utils_envvar_range_order :
  range_order (utils.translations !!! "envvar") utils_envvar_sorted.
Proof. compute_done. Qed.

Lemma utils_translate_fmap (range : ranger) (c : utils.Creds)
    (dictionary : gmap string string) :
  range_order dictionary (range dictionary) →
  utils.translate range c dictionary = (λ f, utils.toMap c !!! f) <$> dictionary.
Proof.
  intros [Hnd Hmap]. apply map_eq. intros k. unfold utils.translate.
  rewrite (foldl_insert_lookup (λ f, utils.toMap c !!! f)) by done.
  rewrite Hmap, lookup_fmap, lookup_empty. by destruct (dictionary !! k).
Qed.

Lemma utils_ToEnvVars_loop_lines l res :
  utils.ToEnvVars_loop l res = (res ++ (export_line <$> l))%list.
Proof.
  revert res. induction l as [|[k v] l IH]; intros res.
  { by rewrite List.app_nil_r. }
  simpl utils.ToEnvVars_loop. rewrite IH, fmap_cons, <-List.app_assoc.
  unfold export_line at 2. render. done.
Qed.

Definition utils_export_entries (c : utils.Creds) : list (string * string) := [
  ("AWS_ACCESS_KEY_ID", utils.AccessKey c);
  ("AWS_SECRET_ACCESS_KEY", utils.SecretKey c);
  ("AWS_SECURITY_TOKEN", utils.SessionToken c);
  ("AWS_SESSION_TOKEN", utils.SessionToken c)].

Lemma utils_export_entries_sorted (c : utils.Creds) :
  Sorted String.le (export_line <$> utils_export_entries c).
Proof.
  destruct c as [ak sk st]. unfold utils_export_entries. simpl.
  repeat (constructor; [|try (constructor; by vm_compute)]). constructor.
Qed.

(** X27: [utils.ToEnvVars], the older copy, prints a line for each of its
    four variables whatever the credentials hold, empty values included, in
    ascending order and in whatever order [range] visits the maps. *)
Theorem utils_ToEnvVars_spec (range : ranger) (c : utils.Creds) :
  (∀ m, range_order m (range m)) →
  utils.ToEnvVars range c
  = ["export AWS_ACCESS_KEY_ID=" +:+ utils.AccessKey c;
     "export AWS_SECRET_ACCESS_KEY=" +:+ utils.SecretKey c;
     "export AWS_SECURITY_TOKEN=" +:+ utils.SessionToken c;
     "export AWS_SESSION_TOKEN=" +:+ utils.SessionToken c].
Proof.
  intros Hrange.
  change (utils.ToEnvVars range c = export_line <$> utils_export_entries c).
  apply (Sorted_unique String.le).
  - apply Sorted_merge_sort, _.
  - apply utils_export_entries_sorted.
  - unfold utils.ToEnvVars, sort_Strings.
    rewrite merge_sort_Permutation, utils_ToEnvVars_loop_lines, List.app_nil_l.
    rewrite utils_translate_fmap by done.
    rewrite (range_order_Permutation _ _ (Hrange _)), map_to_list_fmap.
    rewrite <-(range_order_Permutation _ _ utils_envvar_range_order).
    by destruct c.
Qed.

Lemma utils_ToEnvVars_spec_witness :
  (∀ m, range_order m (map_to_list m))
  ∧ utils.ToEnvVars map_to_list (utils.mkCreds "" "" "")
    = ["export AWS_ACCESS_KEY_ID="; "export AWS_SECRET_ACCESS_KEY=";
       "export AWS_SECURITY_TOKEN="; "export AWS_SESSION_TOKEN="].
Proof.
  split; [apply range_order_map_to_list|].
  exact (utils_ToEnvVars_spec map_to_list (utils.mkCreds "" "" "") range_order_map_to_list).
Defined.

End UtilsProps.
